(** * LeadStorm: the four pipeline stages of [LeadStorm/leadstorm.py]

    The script scrapes public posts (Collector), scores them with a
    language model (Qualifier), looks up an email per kept lead (Enricher)
    and writes the result to a spreadsheet (Publisher).

    Embedding.
    - A Python value is a [pyval]; a [dict] is an insertion-ordered
      association list ([pydict]), because the column order of the
      published table follows key insertion order.
    - Leads are mutable [dict] objects that the stages share by reference:
      a lead is a location [loc] in an object store [heap], and a stage
      is a state-and-exception computation over that store.  A write done
      before an exception stays in the store.
    - Every external collaborator (post feed, scoring service, email
      lookup, spreadsheet backend, progress widgets) is a field of
      [world]: each call either returns a value or raises.
    - A Python [str] is a [string] whose characters are the code points
      U+0000..U+00FF; [isspace], [isdigit], [lower] and [int] are the
      interpreter's functions on that range.  Only exceptions derived from
      [Exception] are modelled, and the interpreter's limit on the number
      of digits accepted by [int] is not. *)

From Stdlib Require Import ZArith String Ascii List Lia DecimalString DecimalPos.
From stdpp Require Import base tactics option list gmap strings.

Set Warnings "-register-all".
Local Open Scope string_scope.
Local Open Scope Z_scope.
Local Open Scope list_scope.

(** ** Python values, exceptions and results *)

Inductive pyval : Type :=
| PNone
| PBool (b : bool)
| PInt (z : Z)
| PStr (s : string)
| PList (items : list pyval)
| PDict (entries : list (string * pyval)).

Abbreviation pydict := (list (string * pyval)).

Inductive exn : Type :=
| KeyError (key : string)
| TypeError
| AttributeError
| ValueError
| ExternalError (message : string).

Inductive result (A : Type) : Type :=
| Ret (a : A)
| Raise (e : exn).
Arguments Ret {A} a.
Arguments Raise {A} e.

#[global] Instance result_ret : MRet result := @Ret.
#[global] Instance result_bind : MBind result := fun A B f m =>
  match m with
  | Ret a => f a
  | Raise e => Raise e
  end.

(** A computation over a mutable state [S] that may raise; the state
    reached at the moment of the exception is kept. *)
Definition exec (S A : Type) : Type := S → result A * S.

#[global] Instance exec_ret {S} : MRet (exec S) := fun A a s => (Ret a, s).
#[global] Instance exec_bind {S} : MBind (exec S) := fun A B f m s =>
  match m s with
  | (Ret a, s') => f a s'
  | (Raise e, s') => (Raise e, s')
  end.

Definition lift {S A} (r : result A) : exec S A := fun s => (r, s).

(** ** Strings *)

Definition code (c : ascii) : N := N_of_ascii c.

Definition between (lo hi n : N) : bool := ((lo <=? n) && (n <=? hi))%N.

(** [str.isspace] on one character. *)
Definition isspace_char (c : ascii) : bool :=
  between 9 13 (code c) || between 28 32 (code c)
  || (code c =? 133)%N || (code c =? 160)%N.

Fixpoint lstrip (s : string) : string :=
  match s with
  | EmptyString => EmptyString
  | String c s' => if isspace_char c then lstrip s' else s
  end.

Fixpoint rstrip (s : string) : string :=
  match s with
  | EmptyString => EmptyString
  | String c s' =>
      match rstrip s' with
      | EmptyString => if isspace_char c then EmptyString else String c EmptyString
      | r => String c r
      end
  end.

(** [s.strip()] *)
Definition strip (s : string) : string := rstrip (lstrip s).

(** The ten characters [0]..[9]. *)
Definition isdecimal_char (c : ascii) : bool := between 48 57 (code c).

(** [str.isdigit] on one character: the decimal digits and the
    superscripts U+00B2, U+00B3, U+00B9. *)
Definition isdigit_char (c : ascii) : bool :=
  isdecimal_char c
  || (code c =? 178)%N || (code c =? 179)%N || (code c =? 185)%N.

Fixpoint forall_chars (p : ascii → bool) (s : string) : bool :=
  match s with
  | EmptyString => true
  | String c s' => p c && forall_chars p s'
  end.

(** [s.isdigit()]: at least one character, and all of them digits. *)
Definition isdigit (s : string) : bool :=
  match s with
  | EmptyString => false
  | _ => forall_chars isdigit_char s
  end.

Definition digit_value (c : ascii) : Z := Z.of_N (code c) - 48.

(** The digit part of an integer literal: decimal digits, single
    underscores allowed between two digits. *)
Fixpoint int_digits (acc : Z) (after_digit : bool) (s : string) : result Z :=
  match s with
  | EmptyString => if after_digit then Ret acc else Raise ValueError
  | String c s' =>
      if isdecimal_char c then int_digits (10 * acc + digit_value c) true s'
      else if Ascii.eqb c "_" && after_digit then int_digits acc false s'
      else Raise ValueError
  end.

(** [int(s)] for a string [s]. *)
Definition py_int (s : string) : result Z :=
  match strip s with
  | String "+" digits => int_digits 0 false digits
  | String "-" digits => z ← int_digits 0 false digits; mret (- z)
  | digits => int_digits 0 false digits
  end.

(** [str.lower] on one character: A-Z and the capital letters of
    U+00C0..U+00DE (U+00D7 is the multiplication sign). *)
Definition lower_char (c : ascii) : ascii :=
  if between 65 90 (code c)
     || (between 192 222 (code c) && negb (code c =? 215)%N)
  then ascii_of_N (code c + 32)
  else c.

Fixpoint lower (s : string) : string :=
  match s with
  | EmptyString => EmptyString
  | String c s' => String (lower_char c) (lower s')
  end.

Fixpoint startswith (s prefix : string) : bool :=
  match prefix, s with
  | EmptyString, _ => true
  | String _ _, EmptyString => false
  | String p prefix', String c s' => Ascii.eqb p c && startswith s' prefix'
  end.

(** [needle in hay] for two strings. *)
Fixpoint contains (hay needle : string) : bool :=
  startswith hay needle
  || match hay with
     | EmptyString => false
     | String _ hay' => contains hay' needle
     end.

(** [s[:n]] *)
Fixpoint str_take (n : nat) (s : string) : string :=
  match n, s with
  | S n', String c s' => String c (str_take n' s')
  | _, _ => EmptyString
  end.

Definition string_of_Z (z : Z) : string := NilZero.string_of_int (Z.to_int z).

(** ** Dictionaries and generic operations *)

Fixpoint dict_lookup (d : pydict) (k : string) : option pyval :=
  match d with
  | [] => None
  | (k', v) :: d' => if String.eqb k' k then Some v else dict_lookup d' k
  end.

(** [d[k] = v]: an existing key keeps its position, a new key goes last. *)
Fixpoint dict_set (d : pydict) (k : string) (v : pyval) : pydict :=
  match d with
  | [] => [(k, v)]
  | (k', v') :: d' =>
      if String.eqb k' k then (k', v) :: d' else (k', v') :: dict_set d' k v
  end.

(** [d[k]] *)
Definition getitem (d : pydict) (k : string) : result pyval :=
  match dict_lookup d k with
  | Some v => Ret v
  | None => Raise (KeyError k)
  end.

(** [d.get(k, default)] on a dictionary. *)
Definition dict_get (d : pydict) (k : string) (default : pyval) : pyval :=
  match dict_lookup d k with
  | Some v => v
  | None => default
  end.

(** [v.get(k, default)] on any value: only a [dict] has the method. *)
Definition py_get (v : pyval) (k : string) (default : pyval) : result pyval :=
  match v with
  | PDict d => Ret (dict_get d k default)
  | _ => Raise AttributeError
  end.

(** Truth value of an object. *)
Definition truthy (v : pyval) : bool :=
  match v with
  | PNone => false
  | PBool b => b
  | PInt z => negb (z =? 0)
  | PStr s => negb (String.eqb s "")
  | PList items => negb (Nat.eqb (length items) 0)
  | PDict entries => negb (Nat.eqb (length entries) 0)
  end.

(** [a or b] *)
Definition py_or (a b : pyval) : pyval := if truthy a then a else b.

(** [v.lower()]: only a [str] has the method. *)
Definition py_lower (v : pyval) : result string :=
  match v with
  | PStr s => Ret (lower s)
  | _ => Raise AttributeError
  end.

(** [v[:50]]: strings and lists can be sliced. *)
Definition slice50 (v : pyval) : result pyval :=
  match v with
  | PStr s => Ret (PStr (str_take 50 s))
  | PList items => Ret (PList (take 50 items))
  | _ => Raise TypeError
  end.

(** ** The object store *)

Abbreviation loc := nat (only parsing).
Abbreviation heap := (gmap loc pydict).

Definition load (l : loc) : exec heap pydict := fun h => (Ret (h !!! l), h).

(** [obj[k] = v] on the object at [l], in place. *)
Definition store_field (l : loc) (k : string) (v : pyval) : exec heap unit :=
  fun h => (Ret tt, <[l := dict_set (h !!! l) k v]> h).

(** ** The collaborators *)

Inductive stage : Type := Collecting | Qualifying | Enriching | Publishing.

(** The places where a stage touches the progress bar (together with
    [root.update_idletasks()] and, inside a loop, [time.sleep(1)]). *)
Inductive ui_point : Type := UiOpen | UiStep (i : nat) | UiClose.

(** What the post generator does when iterated: it yields [feed_posts]
    and then stops, or raises [feed_error]. *)
Record feed : Type := Feed { feed_posts : list pydict; feed_error : option exn }.

(** A spreadsheet cell: a value, or [None] for pandas' missing value. *)
Definition cell : Type := option pyval.

Record world : Type := World {
  HUNTER_KEY : pyval;
  (** [str(v)] of a value that is not a string, as an f-string embeds it *)
  py_str : pyval → string;
  refresh : stage → ui_point → result unit;
  (** [fb.get_posts(group=FB_GROUP, pages=5)] *)
  fb_get_posts : result feed;
  (** [OpenAI(api_key=OPENAI_KEY)] *)
  OpenAI : result unit;
  (** the [i]-th [client.chat.completions.create] call, up to
      [response.choices[0].message.content]; a response without a text
      content counts as raising, since both end in the handler of line 81 *)
  chat_create : nat → string → result string;
  (** the [i]-th [requests.get(url, timeout=5).json()] *)
  requests_get_json : nat → string → result pyval;
  (** the call of the credentials constructor of line 129, once it is
      found, and [gspread.authorize] *)
  authorize : result unit;
  (** [int(time.time())] *)
  time_now : Z;
  (** [client.create(sheet_name)]: the id of the new spreadsheet *)
  sheets_create : string → result string;
  sheets_share : string → result unit;
  sheets_update : string → list (list cell) → result unit
}.

(** [f"{v}"] *)
Definition format_value (w : world) (v : pyval) : string :=
  match v with
  | PStr s => s
  | _ => py_str w v
  end.

Definition LEADS_PER_RUN : nat := 10.

(** ** Collector: [scrape_public_fb_leads] *)

(** The test of line 44. *)
Definition post_matches (target_audience : string) (post : pydict) : result bool :=
  text ← getitem post "text";
  if truthy text then
    needle ← Ret (lower target_audience);
    text' ← getitem post "text";
    hay ← py_lower text';
    mret (contains hay needle)
  else mret false.

(** The dictionary of lines 45-50 and the log line 51. *)
Definition new_lead (post : pydict) : result pydict :=
  username ← getitem post "username";
  text ← getitem post "text";
  _ ← slice50 text;
  mret [("username", py_or username (PStr "unknown"));
        ("name", dict_get post "name" (PStr "Unknown User"));
        ("post", text);
        ("source", PStr "Facebook")].

(** The loop of lines 43-53.  [pulled] counts the posts taken from the
    generator so far. *)
Fixpoint scrape_loop (target_audience : string) (posts : list pydict)
    (stop : option exn) (leads : list pydict) (pulled : nat)
    : result (list pydict * nat) :=
  match posts with
  | [] =>
      match stop with
      | None => Ret (leads, pulled)
      | Some e => Raise e
      end
  | post :: rest =>
      hit ← post_matches target_audience post;
      leads' ← (if hit : bool then lead ← new_lead post; mret (leads ++ [lead])
                else mret leads);
      if (LEADS_PER_RUN * 2 <=? length leads')%nat then mret (leads', S pulled)
      else scrape_loop target_audience rest stop leads' (S pulled)
  end.

Definition scrape_try (w : world) (target_audience : string)
    : result (list pydict * nat) :=
  _ ← refresh w Collecting UiOpen;
  posts ← fb_get_posts w;
  out ← scrape_loop target_audience (feed_posts posts) (feed_error posts) [] 0;
  _ ← refresh w Collecting UiClose;
  mret out.

Definition scrape_public_fb_leads (w : world) (target_audience : string)
    : list pydict :=
  match scrape_try w target_audience with
  | Ret (leads, _) => leads
  | Raise _ => []
  end.

(** ** Qualifier: [qualify_leads] *)

Definition score_prompt (w : world) (post : pyval) : string :=
  "Score this lead (0-10) for fit as a potential customer based on: Post: "
  +:+ format_value w post.

(** Line 80. *)
Definition parse_score (raw_score : string) : result Z :=
  if isdigit raw_score then py_int raw_score else Ret 0.

(** The inner [try]/[except] of lines 72-83, given what the service call
    did.  Both log lines slice [lead['post']]. *)
Definition score_from (reply : result string) (post : pyval) : result Z :=
  match (content ← reply;
         let raw_score := strip content in
         _ ← slice50 post;
         parse_score raw_score) with
  | Ret score => Ret score
  | Raise _ => _ ← slice50 post; Ret 0
  end.

(** The loop of lines 70-92; [i] numbers the service calls. *)
Fixpoint qualify_loop (w : world) (i : nat) (leads qualified : list loc)
    : exec heap (list loc) :=
  match leads with
  | [] => mret qualified
  | lead :: rest =>
      d ← load lead;
      post ← lift (getitem d "post");
      score ← lift (score_from (chat_create w i (score_prompt w post)) post);
      qualified' ← (if 5 <=? score
                    then _ ← store_field lead "score" (PInt score);
                         mret (qualified ++ [lead])
                    else mret qualified);
      _ ← lift (refresh w Qualifying (UiStep i));
      if (LEADS_PER_RUN <=? length qualified')%nat then mret qualified'
      else qualify_loop w (S i) rest qualified'
  end.

Definition qualify_try (w : world) (leads : list loc) : exec heap (list loc) :=
  _ ← lift (OpenAI w);
  qualified ← qualify_loop w 0 leads [];
  _ ← lift (refresh w Qualifying UiClose);
  mret qualified.

Definition qualify_leads (w : world) (leads : list loc) (h : heap)
    : list loc * heap :=
  match qualify_try w leads h with
  | (Ret qualified, h') => (qualified, h')
  | (Raise _, h') => ([], h')
  end.

(** ** Enricher: [enrich_leads] *)

Definition hunter_url (w : world) (name : pyval) : string :=
  "https://api.hunter.io/v2/email-finder?full_name=" +:+ format_value w name
  +:+ "&api_key=" +:+ format_value w (HUNTER_KEY w).

(** One turn of the loop, lines 108-115. *)
Definition enrich_one (w : world) (i : nat) (lead : loc) : exec heap unit :=
  d ← load lead;
  name ← lift (getitem d "name");
  response ← lift (requests_get_json w i (hunter_url w name));
  data ← lift (py_get response "data" (PDict []));
  email ← lift (py_get data "email" (PStr "N/A"));
  _ ← store_field lead "email" email;
  d' ← load lead;
  post ← lift (getitem d' "post");
  excerpt ← lift (slice50 post);
  _ ← store_field lead "why_fit"
        (PStr ("Post: " +:+ format_value w excerpt +:+ "..."));
  lift (refresh w Enriching (UiStep i)).

Fixpoint enrich_loop (w : world) (i : nat) (leads : list loc) : exec heap unit :=
  match leads with
  | [] => mret tt
  | lead :: rest => _ ← enrich_one w i lead; enrich_loop w (S i) rest
  end.

Definition enrich_try (w : world) (leads : list loc) : exec heap (list loc) :=
  _ ← enrich_loop w 0 leads;
  _ ← lift (refresh w Enriching UiClose);
  mret leads.

Definition enrich_leads (w : world) (leads : list loc) (h : heap)
    : list loc * heap :=
  match enrich_try w leads h with
  | (Ret out, h') => (out, h')
  | (Raise _, h') => (leads, h')
  end.

(** ** Publisher: [upload_to_sheets] *)

(** [pandas.DataFrame(records)] for a list of dictionaries: the columns
    are the keys in order of first appearance, there is one row per
    dictionary, and a key a dictionary lacks gives a missing cell.  A cell
    records which value of which lead it stems from; the conversion that
    pandas applies to a column of mixed kinds (integers beside a missing
    cell become floats, [None] may become a missing cell) is not
    modelled, so only the number of rows and columns is meant. *)
Record DataFrame : Type := Frame {
  df_columns : list string;
  df_values : list (list cell)
}.

Definition add_column (columns : list string) (k : string) : list string :=
  if existsb (String.eqb k) columns then columns else columns ++ [k].

Definition add_columns (columns : list string) (d : pydict) : list string :=
  fold_left add_column (map fst d) columns.

Definition frame_of (records : list pydict) : DataFrame :=
  let columns := fold_left add_columns records [] in
  Frame columns (map (fun d => map (dict_lookup d) columns) records).

(** [df.empty]: one of the two axes has length 0. *)
Definition df_empty (df : DataFrame) : bool :=
  Nat.eqb (length (df_columns df)) 0 || Nat.eqb (length (df_values df)) 0.

Definition placeholder_record : pydict :=
  [("name", PStr "No leads found"); ("email", PStr "N/A");
   ("why_fit", PStr "Try a different audience")].

(** The argument of [sheet.update], lines 135-138. *)
Definition sheet_rows (records : list pydict) : list (list cell) :=
  let df := frame_of records in
  let df := if df_empty df then frame_of [placeholder_record] else df in
  map (fun c => Some (PStr c)) (df_columns df) :: df_values df.

(** The operations the spreadsheet backend has completed. *)
Inductive sheet_call : Type :=
| Created (name id : string)
| Shared (id : string)
| Updated (id : string) (rows : list (list cell)).

Definition done (c : sheet_call) : exec (list sheet_call) unit :=
  fun log => (Ret tt, log ++ [c]).

(** Modelled from the library [oauth2client]: the class methods by which
    [oauth2client.service_account.ServiceAccountCredentials] builds
    credentials from a key. *)
Definition credential_constructors : list string :=
  ["from_json_keyfile_name"; "from_json_keyfile_dict";
   "from_p12_keyfile"; "from_p12_keyfile_buffer"].

(** [ServiceAccountCredentials.<name>] for the name of a constructor: a
    name the class does not define is an [AttributeError]. *)
Definition credential_constructor (name : string) : result unit :=
  if existsb (String.eqb name) credential_constructors then Ret tt
  else Raise AttributeError.

(** [f"LeadStorm_{int(time.time())}"] *)
Definition sheet_name (w : world) : string :=
  "LeadStorm_" +:+ string_of_Z (time_now w).

Definition upload_try (w : world) (records : list pydict)
    : exec (list sheet_call) string :=
  _ ← lift (credential_constructor "from_json_keydict");
  _ ← lift (authorize w);
  id ← lift (sheets_create w (sheet_name w));
  _ ← done (Created (sheet_name w) id);
  _ ← lift (sheets_share w id);
  _ ← done (Shared id);
  let rows := sheet_rows records in
  _ ← lift (sheets_update w id rows);
  _ ← done (Updated id rows);
  _ ← lift (refresh w Publishing UiClose);
  mret ("https://docs.google.com/spreadsheets/d/" +:+ id).

(** The handler of lines 143-145 logs and raises again. *)
Definition upload_to_sheets (w : world) (leads : list loc) (h : heap)
    : result string * list sheet_call :=
  match upload_try w (map (fun l => h !!! l) leads) [] with
  | (Ret url, log) => (Ret url, log)
  | (Raise e, log) => (Raise e, log)
  end.

(** The rows handed over by a completed [sheet.update]. *)
Definition rows_written (log : list sheet_call) : list (list (list cell)) :=
  omap (fun c => match c with Updated _ rows => Some rows | _ => None end) log.

(** ** The run: [start_process] *)

Inductive dialog : Type :=
| ShowError (text : string)
| ShowWarning (text : string)
| ShowInfo (text : string).

(** The Collector's fresh dictionaries, as objects. *)
Definition allocate (records : list pydict) : list loc * heap :=
  (seq 0 (length records), map_seq 0 records).

Definition start_process (w : world) (entry : string) : result dialog :=
  let audience := strip entry in
  if String.eqb audience "" then Ret (ShowError "Enter an audience first!")
  else
    let raw := scrape_public_fb_leads w audience in
    match raw with
    | [] => Ret (ShowWarning "No leads found on public FB. Try a different audience.")
    | _ =>
        let '(raw_leads, h0) := allocate raw in
        let '(qualified_leads, h1) := qualify_leads w raw_leads h0 in
        match qualified_leads with
        | [] => Ret (ShowWarning "No leads scored high enough. Try a broader audience.")
        | _ =>
            let '(enriched_leads, h2) := enrich_leads w qualified_leads h1 in
            sheet_url ← (upload_to_sheets w enriched_leads h2).1;
            mret (ShowInfo ("Done! Found "
                            +:+ string_of_Z (Z.of_nat (length enriched_leads))
                            +:+ " leads: " +:+ sheet_url))
        end
    end.

(** * Notions used to state the properties *)

(** What one turn of the Qualifier's loop does to the list and the store. *)
Definition qualify_keep (lead : loc) (score : Z) (qualified : list loc) (h : heap)
    : list loc * heap :=
  if 5 <=? score
  then (qualified ++ [lead], <[lead := dict_set (h !!! lead) "score" (PInt score)]> h)
  else (qualified, h).

(** The [score] field of the object at [l] holds an integer satisfying [P]. *)
Definition score_is (P : Z → Prop) (h : heap) (l : loc) : Prop :=
  ∃ z, dict_lookup (h !!! l) "score" = Some (PInt z) ∧ P z.

(** A non-empty string of the characters [0]..[9]. *)
Definition plain_literal (s : string) : bool :=
  negb (String.eqb s "") && forall_chars isdecimal_char s.

Fixpoint decimal_value (acc : Z) (s : string) : Z :=
  match s with
  | EmptyString => acc
  | String c s' => decimal_value (10 * acc + digit_value c) s'
  end.

Definition plain_score (raw_score : string) : Z :=
  if plain_literal raw_score then decimal_value 0 raw_score else 0.

(** The lead at position [i] qualifies: its scoring call yields a score
    of at least 5. *)
Definition qualifies (w : world) (h : heap) (i : nat) (lead : loc) : bool :=
  match getitem (h !!! lead) "post" with
  | Ret post =>
      match score_from (chat_create w i (score_prompt w post)) post with
      | Ret score => 5 <=? score
      | Raise _ => false
      end
  | Raise _ => false
  end.

(** The qualifying leads of a list whose first element is at position [i],
    in the order of the list. *)
Fixpoint qualifying (w : world) (h : heap) (i : nat) (leads : list loc)
    : list loc :=
  match leads with
  | [] => []
  | lead :: rest =>
      (if qualifies w h i lead then [lead] else []) ++ qualifying w h (S i) rest
  end.

(** The object at [l] carries both fields the Enricher writes. *)
Definition enriched (h : heap) (l : loc) : Prop :=
  is_Some (dict_lookup (h !!! l) "email")
  ∧ is_Some (dict_lookup (h !!! l) "why_fit").

(** The response is an object without an address: no [data] entry, or a
    [data] object without an [email] entry. *)
Definition lacks_email (response : pydict) : bool :=
  match dict_lookup response "data" with
  | None => true
  | Some (PDict data) =>
      match dict_lookup data "email" with
      | None => true
      | Some _ => false
      end
  | Some _ => false
  end.


(** Some stretch of [text] equals [audience] up to letter case. *)
Definition ci_contains (text audience : string) : Prop :=
  ∃ before middle after,
    text = before +:+ middle +:+ after ∧ lower middle = lower audience.

(** The lead's [post] is a text in which the audience string occurs up to
    letter case. *)
Definition matches_audience (audience : string) (lead : pydict) : Prop :=
  ∃ text, dict_lookup lead "post" = Some (PStr text) ∧ ci_contains text audience.

(** The post passes the test of line 44. *)
Definition is_hit (target_audience : string) (post : pydict) : bool :=
  match post_matches target_audience post with
  | Ret hit => hit
  | Raise _ => false
  end.

Fixpoint hits (target_audience : string) (posts : list pydict) : nat :=
  match posts with
  | [] => 0
  | post :: rest =>
      (if is_hit target_audience post then 1 else 0) + hits target_audience rest
  end%nat.

(** ** Sample runs *)

Module Sample.
Definition record (name post : string) : pydict :=
  [("username", PStr "someone"); ("name", PStr name);
   ("post", PStr post); ("source", PStr "Facebook")].

(** Two lead objects at locations 0 and 1. *)
Definition store : heap :=
  map_seq 0 [record "Ann Baker" "We are bakery owners in town";
             record "Bob Cook" "Bakery owners, any advice?"].

Definition found : pyval :=
  PDict [("data", PDict [("email", PStr "ann@example.com")])].

Definition not_found : pyval := PDict [("errors", PList [])].

(** A world in which the post feed, the client constructor, the
    spreadsheet backend and the widgets all answer; the scoring and the
    lookup service are given. *)
Definition serving (chat : nat → string → result string)
    (lookup : nat → string → result pyval) : world := {|
  HUNTER_KEY := PStr "hunter-key";
  py_str := λ _, "<object>";
  refresh := λ _ _, Ret tt;
  fb_get_posts := Ret (Feed [] None);
  OpenAI := Ret tt;
  chat_create := chat;
  requests_get_json := lookup;
  authorize := Ret tt;
  time_now := 1700000000;
  sheets_create := λ _, Ret "sheet-id";
  sheets_share := λ _, Ret tt;
  sheets_update := λ _ _, Ret tt
|}.

(** The scoring service always replies [reply]. *)
Definition replying (reply : string) : world :=
  serving (λ _ _, Ret reply) (λ _ _, Ret found).

(** The lookup call number [k] raises, the others find an address. *)
Definition outage_at (k : nat) : world :=
  serving (λ _ _, Ret "7")
          (λ i _, if Nat.eqb i k then Raise (ExternalError "timeout") else Ret found).


(** Every lookup answers without an address. *)
Definition nothing_found : world :=
  serving (λ _ _, Ret "7") (λ _ _, Ret not_found).

(** Three posts in the feed, two of them about bakery owners; every reply
    of the scoring service is an 8 between blanks; the first lookup finds
    an address, the others do not; the backend creates sheets as told. *)
Definition bakery_with (create : string → result string) : world := {|
  HUNTER_KEY := PStr "hunter-key";
  py_str := λ _, "<object>";
  refresh := λ _ _, Ret tt;
  fb_get_posts :=
    Ret (Feed [[("text", PStr "We are BAKERY owners in town");
                ("username", PStr "ann"); ("name", PStr "Ann Baker")];
               [("text", PStr "Selling a bike"); ("username", PNone)];
               [("text", PStr "Bakery Owners, any advice?"); ("username", PNone)]]
              None);
  OpenAI := Ret tt;
  chat_create := λ _ _, Ret " 8 ";
  requests_get_json := λ i _, if Nat.eqb i 0 then Ret found else Ret not_found;
  authorize := Ret tt;
  time_now := 1700000000;
  sheets_create := create;
  sheets_share := λ _, Ret tt;
  sheets_update := λ _ _, Ret tt
|}.

Definition bakery : world := bakery_with (λ _, Ret "sheet-id").
End Sample.

(** * Further code and notions *)

(** ** Configuration: lines 18-30 *)

(** [v[k]] for a string key [k]: only a [dict] can be indexed by a string. *)
Definition py_subscript (v : pyval) (k : string) : result pyval :=
  match v with
  | PDict d => getitem d k
  | _ => Raise TypeError
  end.

Record config : Type := Config {
  cfg_hunter_key : pyval;
  cfg_openai_key : pyval;
  cfg_google_creds : pyval
}.

(** The module-level [try] of lines 19-30.  [config_file] is what
    [open('config.json')] and [json.load] give.  Both handlers log and
    raise again, and an exception of another class is not caught. *)
Definition load_config (config_file : result pyval) : result config :=
  match (CONFIG ← config_file;
         hunter_key ← py_subscript CONFIG "hunter_key";
         openai_key ← py_subscript CONFIG "openai_key";
         google_creds ← py_subscript CONFIG "google_creds";
         mret (Config hunter_key openai_key google_creds)) with
  | Ret c => Ret c
  | Raise e => Raise e
  end.

Definition config_keys : list string := ["hunter_key"; "openai_key"; "google_creds"].

(** ** Notions for the Collector *)

(** A dictionary as lines 45-50 build it. *)
Definition collected_lead (lead : pydict) : Prop :=
  ∃ username name text,
    lead = [("username", username); ("name", name);
            ("post", PStr text); ("source", PStr "Facebook")]
    ∧ truthy username = true ∧ text ≠ "".

(** [lead] is the dictionary built from the hit [post]. *)
Definition lead_of_post (audience : string) (post lead : pydict) : Prop :=
  post_matches audience post = Ret true ∧ new_lead post = Ret lead.

(** Lines 44-51 raise on [post]: the test does, or the post is a hit and
    building its lead does. *)
Definition post_fails (audience : string) (post : pydict) : bool :=
  match post_matches audience post with
  | Raise _ => true
  | Ret false => false
  | Ret true =>
      match new_lead post with
      | Raise _ => true
      | Ret _ => false
      end
  end.

(** ** Notions for the Qualifier *)

(** The object at [l] has a [post] that can be sliced (a string or a
    list), as the log lines of the Qualifier need. *)
Definition has_post (h : heap) (l : loc) : Prop :=
  ∃ post excerpt, dict_lookup (h !!! l) "post" = Some post
                  ∧ slice50 post = Ret excerpt.

(** ** Notions for the Enricher *)

(** The [why_fit] text of a lead whose [post] is [post]. *)
Definition why_fit_of (w : world) (post : pyval) : result pyval :=
  excerpt ← slice50 post;
  mret (PStr ("Post: " +:+ format_value w excerpt +:+ "...")).

(** The [why_fit] of the object at [l] in [h'] is the one computed from
    its [post] in [h]. *)
Definition why_fit_from (w : world) (h h' : heap) (l : loc) : Prop :=
  ∃ post v, dict_lookup (h !!! l) "post" = Some post
    ∧ why_fit_of w post = Ret v
    ∧ dict_lookup (h' !!! l) "why_fit" = Some v.

(** The response carries an [email] entry, whatever its value. *)
Definition email_in (response : pydict) : option pyval :=
  match dict_lookup response "data" with
  | Some (PDict data) => dict_lookup data "email"
  | _ => None
  end.

(** The response has no [get] method, or its [data] entry has none. *)
Definition malformed (response : pyval) : bool :=
  match response with
  | PDict d =>
      match dict_lookup d "data" with
      | Some (PDict _) | None => false
      | Some _ => true
      end
  | _ => true
  end.

(** ** Notions for the run *)

(** What [start_process] hands to the Publisher, when it gets there. *)
Definition publisher_input (w : world) (entry : string) : option (list loc * heap) :=
  let audience := strip entry in
  if String.eqb audience "" then None
  else
    match scrape_public_fb_leads w audience with
    | [] => None
    | raw =>
        let '(raw_leads, h0) := allocate raw in
        let '(qualified_leads, h1) := qualify_leads w raw_leads h0 in
        match qualified_leads with
        | [] => None
        | _ => Some (enrich_leads w qualified_leads h1)
        end
    end.

Module Scenario.
(** The post feed cannot be read. *)
Definition feed_down : world := {|
  HUNTER_KEY := PStr "hunter-key";
  py_str := λ _, "<object>";
  refresh := λ _ _, Ret tt;
  fb_get_posts := Raise (ExternalError "feed unavailable");
  OpenAI := Ret tt;
  chat_create := λ _ _, Ret "7";
  requests_get_json := λ _ _, Ret Sample.found;
  authorize := Ret tt;
  time_now := 1700000000;
  sheets_create := λ _, Ret "sheet-id";
  sheets_share := λ _, Ret tt;
  sheets_update := λ _ _, Ret tt
|}.

(** The feed of [Sample.bakery], with the given client constructor,
    scoring service and lookup service. *)
Definition bakery_of (client : result unit) (chat : nat → string → result string)
    (lookup : nat → string → result pyval) : world := {|
  HUNTER_KEY := PStr "hunter-key";
  py_str := λ _, "<object>";
  refresh := λ _ _, Ret tt;
  fb_get_posts := fb_get_posts Sample.bakery;
  OpenAI := client;
  chat_create := chat;
  requests_get_json := lookup;
  authorize := Ret tt;
  time_now := 1700000000;
  sheets_create := λ _, Ret "sheet-id";
  sheets_share := λ _, Ret tt;
  sheets_update := λ _ _, Ret tt
|}.

(** The scoring call number [k] raises, the others reply 7. *)
Definition scoring_outage_at (k : nat) : world :=
  Sample.serving
    (λ i _, if Nat.eqb i k then Raise (ExternalError "rate limit") else Ret "7")
    (λ _ _, Ret Sample.found).

(** The client constructor raises (a bad key, say). *)
Definition no_client : world :=
  bakery_of (Raise (ExternalError "invalid api key")) (λ _ _, Ret "7")
            (λ _ _, Ret Sample.found).

(** What the Publisher receives in the run of [Sample.bakery]. *)
Definition handed_over : list loc * heap :=
  default ([], ∅) (publisher_input Sample.bakery "bakery owners").

(** The window is closed during the Qualifier's turn number [k]: the
    refresh of that turn raises. *)
Definition window_closed_at (k : nat) : world := {|
  HUNTER_KEY := PStr "hunter-key";
  py_str := λ _, "<object>";
  refresh := λ s p,
    match s, p with
    | Qualifying, UiStep i =>
        if Nat.eqb i k then Raise (ExternalError "application has been destroyed")
        else Ret tt
    | _, _ => Ret tt
    end;
  fb_get_posts := Ret (Feed [] None);
  OpenAI := Ret tt;
  chat_create := λ _ _, Ret "7";
  requests_get_json := λ _ _, Ret Sample.found;
  authorize := Ret tt;
  time_now := 1700000000;
  sheets_create := λ _, Ret "sheet-id";
  sheets_share := λ _, Ret tt;
  sheets_update := λ _ _, Ret tt
|}.

(** A feed whose second post has no [text]. *)
Definition broken_feed : world := {|
  HUNTER_KEY := PStr "hunter-key";
  py_str := λ _, "<object>";
  refresh := λ _ _, Ret tt;
  fb_get_posts :=
    Ret (Feed [[("text", PStr "Bakery owners wanted"); ("username", PStr "ann")];
               [("username", PStr "bob")]]
              None);
  OpenAI := Ret tt;
  chat_create := λ _ _, Ret "7";
  requests_get_json := λ _ _, Ret Sample.found;
  authorize := Ret tt;
  time_now := 1700000000;
  sheets_create := λ _, Ret "sheet-id";
  sheets_share := λ _, Ret tt;
  sheets_update := λ _ _, Ret tt
|}.
End Scenario.

(** * Properties *)

(** ** Dictionaries and the object store *)

Lemma dict_lookup_set_eq (d : pydict) k v : dict_lookup (dict_set d k v) k = Some v.
Proof.
  induction d as [|[k' v'] d IH]; simpl.
  - by rewrite String.eqb_refl.
  - destruct (String.eqb k' k) eqn:E; simpl; rewrite E; [done | apply IH].
Qed.

Lemma dict_lookup_set_ne (d : pydict) k k' v :
  k ≠ k' → dict_lookup (dict_set d k v) k' = dict_lookup d k'.
Proof.
  intros Hne. induction d as [|[k0 v0] d IH]; simpl.
  - destruct (String.eqb k k') eqn:E; [|done].
    apply String.eqb_eq in E. contradiction.
  - destruct (String.eqb k0 k) eqn:E; simpl.
    + apply String.eqb_eq in E. subst k0.
      destruct (String.eqb k k') eqn:E'; [|done].
      apply String.eqb_eq in E'. contradiction.
    + by rewrite IH.
Qed.

(** ** Qualifier *)

Lemma qualify_loop_cons w i lead rest qualified h :
  qualify_loop w i (lead :: rest) qualified h =
  match getitem (h !!! lead) "post" with
  | Raise e => (Raise e, h)
  | Ret post =>
      match score_from (chat_create w i (score_prompt w post)) post with
      | Raise e => (Raise e, h)
      | Ret score =>
          let '(qualified', h1) := qualify_keep lead score qualified h in
          match refresh w Qualifying (UiStep i) with
          | Raise e => (Raise e, h1)
          | Ret _ =>
              if (LEADS_PER_RUN <=? length qualified')%nat then (Ret qualified', h1)
              else qualify_loop w (S i) rest qualified' h1
          end
      end
  end.
Proof.
  unfold qualify_keep. cbn [qualify_loop].
  unfold mbind, exec_bind, load, lift, mret, exec_ret, store_field.
  destruct (getitem (h !!! lead) "post"); [|done].
  destruct (score_from _ _); [|done].
  destruct (5 <=? a0); destruct (refresh _ _ _); try done;
    by destruct (_ <=? _)%nat.
Qed.

Lemma qualify_keep_spec lead score qualified h qualified' h1 :
  qualify_keep lead score qualified h = (qualified', h1) →
  (qualified' = qualified ∧ h1 = h ∧ score < 5)
  ∨ (qualified' = qualified ++ [lead] ∧ 5 ≤ score
     ∧ h1 = <[lead := dict_set (h !!! lead) "score" (PInt score)]> h).
Proof.
  unfold qualify_keep. destruct (5 <=? score) eqn:E; intros [= <- <-].
  - right. split_and!; [done | lia | done].
  - left. split_and!; [done | done | lia].
Qed.

Lemma qualify_keep_fields lead score qualified h qualified' h1 l k :
  qualify_keep lead score qualified h = (qualified', h1) →
  k ≠ "score" → dict_lookup (h1 !!! l) k = dict_lookup (h !!! l) k.
Proof.
  intros [(-> & -> & _) | (-> & Hge & ->)]%qualify_keep_spec Hk; [done|].
  destruct (decide (lead = l)) as [->|Hne].
  - rewrite lookup_total_insert_eq. by apply dict_lookup_set_ne.
  - by rewrite lookup_total_insert_ne.
Qed.

Lemma qualify_loop_fields w leads :
  ∀ i qualified h r h' l k,
    qualify_loop w i leads qualified h = (r, h') →
    k ≠ "score" → dict_lookup (h' !!! l) k = dict_lookup (h !!! l) k.
Proof.
  induction leads as [|lead rest IH]; intros i qualified h r h' l k.
  - by intros [= _ <-].
  - rewrite qualify_loop_cons.
    destruct (getitem _ _) as [post|e]; [|by intros [= _ <-]].
    destruct (score_from _ _) as [score|e]; [|by intros [= _ <-]].
    destruct (qualify_keep _ _ _ _) as [qualified' h1] eqn:Hkeep.
    intros Hrun Hk.
    rewrite <- (qualify_keep_fields _ _ _ _ _ _ l k Hkeep Hk).
    destruct (refresh _ _ _); [|by injection Hrun as _ <-].
    destruct (_ <=? _)%nat; [by injection Hrun as _ <-|].
    by eapply IH.
Qed.

Section score_invariant.
Context (w : world) (P : Z → Prop).
(** Every score the service can produce that passes the threshold
    satisfies [P]. *)
Hypothesis passing_scores :
  ∀ i post score,
    score_from (chat_create w i (score_prompt w post)) post = Ret score →
    5 ≤ score → P score.

Lemma qualify_keep_score_is i post lead score qualified h qualified' h1 l :
  score_from (chat_create w i (score_prompt w post)) post = Ret score →
  qualify_keep lead score qualified h = (qualified', h1) →
  score_is P h l → score_is P h1 l.
Proof.
  intros Hscore [(-> & -> & _) | (-> & Hge & ->)]%qualify_keep_spec; [done|].
  intros Hl. destruct (decide (lead = l)) as [->|Hne].
  - exists score. rewrite lookup_total_insert_eq, dict_lookup_set_eq. eauto.
  - unfold score_is. by rewrite lookup_total_insert_ne.
Qed.

(** The invariant behind the cap and the threshold: the list under
    construction holds fewer than [LEADS_PER_RUN] leads when a turn
    starts, and each of them has a passing score in the store. *)
Lemma qualify_loop_sound leads :
  ∀ i qualified h out h',
    qualify_loop w i leads qualified h = (Ret out, h') →
    (length qualified < LEADS_PER_RUN)%nat →
    Forall (score_is P h) qualified →
    (length out ≤ LEADS_PER_RUN)%nat ∧ Forall (score_is P h') out
    ∧ ∃ kept, out = qualified ++ kept ∧ kept `sublist_of` leads.
Proof.
  induction leads as [|lead rest IH]; intros i qualified h out h'.
  - intros [= <- <-] Hlen Hall. split_and!; [lia | done |].
    exists []. by rewrite app_nil_r.
  - rewrite qualify_loop_cons.
    destruct (getitem _ _) as [post|e]; [|done].
    destruct (score_from _ _) as [score|e] eqn:Hscore; [|done].
    destruct (qualify_keep _ _ _ _) as [qualified' h1] eqn:Hkeep.
    intros Hrun Hlen Hall.
    assert (Forall (score_is P h1) qualified') as Hall'.
    { assert (Forall (score_is P h1) qualified) as Hold.
      { eapply Forall_impl; [done|]. intros l.
        by eapply qualify_keep_score_is. }
      destruct (qualify_keep_spec _ _ _ _ _ _ Hkeep)
        as [(-> & -> & _) | (-> & Hge & ->)]; [done|].
      apply Forall_app. split; [done|]. apply Forall_singleton.
      exists score. rewrite lookup_total_insert_eq, dict_lookup_set_eq. eauto. }
    assert (length qualified' ≤ LEADS_PER_RUN
            ∧ ∃ one, qualified' = qualified ++ one ∧ one `sublist_of` [lead])%nat
      as [Hlen' (one & -> & Hone)].
    { destruct (qualify_keep_spec _ _ _ _ _ _ Hkeep)
        as [(-> & -> & _) | (-> & Hge & ->)].
      - split; [lia|]. exists []. rewrite app_nil_r. split; [done|].
        apply sublist_nil_l.
      - rewrite length_app; simpl. split; [lia|]. by exists [lead]. }
    destruct (refresh _ _ _); [|done].
    destruct (_ <=? _)%nat eqn:Hcap.
    + injection Hrun as <- <-. split_and!; [done | done |].
      exists one. split; [done|].
      change (lead :: rest) with ([lead] ++ rest). by apply sublist_inserts_r.
    + apply Nat.leb_gt in Hcap.
      destruct (IH _ _ _ _ _ Hrun Hcap Hall') as (? & ? & kept & -> & Hkept).
      split_and!; [done | done |].
      exists (one ++ kept). rewrite app_assoc. split; [done|].
      change (lead :: rest) with ([lead] ++ rest). by apply sublist_app.
Qed.
End score_invariant.

(** The Qualifier writes no field but [score]. *)
Lemma qualify_leads_fields w leads h l k :
  k ≠ "score" →
  dict_lookup ((qualify_leads w leads h).2 !!! l) k = dict_lookup (h !!! l) k.
Proof.
  intros Hk.
  assert ((qualify_leads w leads h).2 = (qualify_try w leads h).2) as ->.
  { unfold qualify_leads. by destruct (qualify_try w leads h) as [[] ?]. }
  unfold qualify_try, mbind, exec_bind, lift, mret, exec_ret.
  destruct (OpenAI w); [|done].
  destruct (qualify_loop w 0 leads [] h) as [r h1] eqn:Hloop.
  apply (qualify_loop_fields _ _ _ _ _ _ _ l k) in Hloop; [|done].
  destruct r; [by destruct (refresh w Qualifying UiClose)|done].
Qed.

Lemma qualify_try_ret w leads h out h' :
  qualify_try w leads h = (Ret out, h') →
  qualify_loop w 0 leads [] h = (Ret out, h').
Proof.
  unfold qualify_try, mbind, exec_bind, lift, mret, exec_ret.
  destruct (OpenAI w); [|done].
  destruct (qualify_loop w 0 leads [] h) as [[q|e] h1]; [|done].
  by destruct (refresh _ _ _).
Qed.

Lemma qualify_leads_cases w leads h :
  (∃ out h', qualify_try w leads h = (Ret out, h')
             ∧ qualify_leads w leads h = (out, h'))
  ∨ (∃ e h', qualify_try w leads h = (Raise e, h')
             ∧ qualify_leads w leads h = ([], h')).
Proof.
  unfold qualify_leads. destruct (qualify_try w leads h) as [[out|e] h']; eauto.
Qed.

(** C1.  For every input list, every world and every store, the leads
    returned by [qualify_leads] are among the input leads, each of them
    has a [score] field holding an integer of at least 5, and there are at
    most 10 of them. *)
Theorem qualify_leads_threshold_and_cap (w : world) (leads : list loc) (h : heap) :
  let out := (qualify_leads w leads h).1 in
  let h' := (qualify_leads w leads h).2 in
  out ⊆ leads ∧ Forall (score_is (λ z, 5 ≤ z) h') out ∧ (length out ≤ 10)%nat.
Proof.
  destruct (qualify_leads_cases w leads h)
    as [(out & h' & Htry & ->) | (e & h' & _ & ->)]; simpl.
  - apply qualify_try_ret in Htry.
    destruct (qualify_loop_sound w (λ z, 5 ≤ z) (λ _ _ _ _ H, H) _ _ _ _ _ _ Htry)
      as (Hlen & Hall & kept & -> & Hsub); [unfold LEADS_PER_RUN; simpl; lia | done |].
    split_and!; [|done|done].
    intros l Hl. by eapply elem_of_sublist.
  - split_and!; [set_solver | done | lia].
Qed.

(** ** Score parsing *)

Ltac each_char c :=
  destruct c as [[] [] [] [] [] [] [] []]; try discriminate; try reflexivity.

Lemma isdigit_char_not_space c : isdigit_char c = true → isspace_char c = false.
Proof. each_char c. Qed.

Lemma isdecimal_char_isdigit c : isdecimal_char c = true → isdigit_char c = true.
Proof. each_char c. Qed.

Lemma rstrip_digits s : forall_chars isdigit_char s = true → rstrip s = s.
Proof.
  induction s as [|c s IH]; [done|]. simpl.
  intros [Hc Hs]%andb_prop. rewrite (IH Hs).
  destruct s; [|done]. by rewrite (isdigit_char_not_space c Hc).
Qed.

Lemma strip_digits s : forall_chars isdigit_char s = true → strip s = s.
Proof.
  intros Hs. unfold strip.
  assert (lstrip s = s) as ->; [|by apply rstrip_digits].
  destruct s as [|c s]; [done|]. simpl in *.
  apply andb_prop in Hs as [Hc _]. by rewrite (isdigit_char_not_space c Hc).
Qed.

Lemma int_digits_digits s :
  ∀ acc, forall_chars isdigit_char s = true →
    int_digits acc true s =
    if forall_chars isdecimal_char s then Ret (decimal_value acc s)
    else Raise ValueError.
Proof.
  induction s as [|c s IH]; intros acc; [done|]. simpl.
  intros [Hc Hs]%andb_prop.
  destruct (isdecimal_char c) eqn:Hdec; simpl; [by apply IH|].
  assert (Ascii.eqb c "_" = false) as ->; [|done].
  revert Hc. clear. each_char c.
Qed.

Lemma py_int_digits s :
  isdigit s = true →
  py_int s = if plain_literal s then Ret (decimal_value 0 s) else Raise ValueError.
Proof.
  destruct s as [|c s]; [done|]. unfold isdigit, py_int, plain_literal.
  intros Hs. rewrite (strip_digits _ Hs). simpl in Hs.
  apply andb_prop in Hs as [Hc Hs].
  transitivity (int_digits 0 false (String c s)).
  { revert Hc. clear. each_char c. }
  simpl. destruct (isdecimal_char c) eqn:Hdec; simpl; [by apply int_digits_digits|].
  assert (Ascii.eqb c "_" = false) as ->; [|done].
  revert Hc. clear. each_char c.
Qed.

Lemma plain_literal_isdigit s : plain_literal s = true → isdigit s = true.
Proof.
  unfold plain_literal, isdigit. destruct s as [|c s]; [done|].
  simpl negb. rewrite andb_true_l. generalize (String c s). clear.
  induction s as [|c s IH]; [done|]. simpl.
  intros [Hc Hs]%andb_prop. by rewrite (isdecimal_char_isdigit c Hc), IH.
Qed.

(** Line 80 with its [ValueError] caught: a plain literal gives its
    decimal value, anything else gives 0. *)
Lemma parse_score_plain raw_score :
  match parse_score raw_score with
  | Ret score => score
  | Raise _ => 0
  end = plain_score raw_score.
Proof.
  unfold parse_score, plain_score.
  destruct (isdigit raw_score) eqn:Hd.
  - rewrite (py_int_digits _ Hd). by destruct (plain_literal raw_score).
  - destruct (plain_literal raw_score) eqn:Hp; [|done].
    apply plain_literal_isdigit in Hp. congruence.
Qed.

Lemma score_from_reply content post :
  score_from (Ret content) (PStr post) = Ret (plain_score (strip content)).
Proof.
  unfold score_from. simpl.
  rewrite <- parse_score_plain. by destruct (parse_score _).
Qed.

Lemma score_from_failure e post : score_from (Raise e) (PStr post) = Ret 0.
Proof. reflexivity. Qed.

(** C2.  The score computed from a reply of the scoring service, for a
    lead whose post is a string: the reply ["7"] gives 7; ["abc"], the
    empty string and ["-3"] give 0; in general the score is the decimal
    value of the stripped reply when that is a non-empty string of the
    digits 0-9, and 0 otherwise. *)
Theorem score_from_reply_examples (post : string) :
  score_from (Ret "7") (PStr post) = Ret 7
  ∧ score_from (Ret "abc") (PStr post) = Ret 0
  ∧ score_from (Ret "") (PStr post) = Ret 0
  ∧ score_from (Ret "-3") (PStr post) = Ret 0
  ∧ ∀ content,
      score_from (Ret content) (PStr post) =
      Ret (if plain_literal (strip content)
           then decimal_value 0 (strip content) else 0).
Proof.
  repeat (split; [reflexivity|]). intros content. apply score_from_reply.
Qed.

(** A superscript two passes [isdigit] but is no literal for [int]: the
    [ValueError] is caught and the score is 0. *)
Example superscript_reply :
  let reply := String (ascii_of_N 178) "" in
  isdigit reply = true
  ∧ py_int reply = Raise ValueError
  ∧ score_from (Ret reply) (PStr "a post") = Ret 0.
Proof. repeat split. Qed.

(** ** Order of the kept leads *)

Lemma qualifying_ext w h h' leads :
  (∀ l, dict_lookup (h' !!! l) "post" = dict_lookup (h !!! l) "post") →
  ∀ i, qualifying w h' i leads = qualifying w h i leads.
Proof.
  intros Hpost. induction leads as [|lead rest IH]; intros i; [done|].
  simpl. rewrite IH. unfold qualifies, getitem. by rewrite Hpost.
Qed.

Lemma qualify_loop_order w leads :
  ∀ i qualified h out h',
    qualify_loop w i leads qualified h = (Ret out, h') →
    (length qualified < LEADS_PER_RUN)%nat →
    ∃ n, (n ≤ length leads)%nat
      ∧ out = qualified ++ qualifying w h i (take n leads)
      ∧ (length out = LEADS_PER_RUN ∨ n = length leads)
      ∧ ∀ m, (m < n)%nat →
          (length (qualified ++ qualifying w h i (take m leads)) < LEADS_PER_RUN)%nat.
Proof.
  induction leads as [|lead rest IH]; intros i qualified h out h'.
  - intros [= <- <-] Hlen. exists 0%nat. simpl. rewrite app_nil_r.
    split_and!; [done | done | by right | lia].
  - rewrite qualify_loop_cons.
    pose proof (eq_refl (qualifies w h i lead)) as Hq. unfold qualifies at 2 in Hq.
    destruct (getitem _ _) as [post|e]; [|done].
    destruct (score_from _ _) as [score|e]; [|done].
    destruct (qualify_keep _ _ _ _) as [qualified' h1] eqn:Hkeep.
    intros Hrun Hlen.
    assert (qualified' = qualified ++ (if qualifies w h i lead then [lead] else []))
      as Hq'.
    { rewrite Hq. unfold qualify_keep in Hkeep.
      destruct (5 <=? score); injection Hkeep as <- _; [done|].
      by rewrite app_nil_r. }
    assert (∀ l, dict_lookup (h1 !!! l) "post" = dict_lookup (h !!! l) "post")
      as Hpost.
    { intros l. by eapply qualify_keep_fields. }
    destruct (refresh _ _ _); [|done].
    destruct (_ <=? _)%nat eqn:Hcap.
    + injection Hrun as <- <-. apply Nat.leb_le in Hcap.
      exists 1%nat. cbn [take qualifying length]. rewrite take_0, app_nil_r.
      split_and!; [lia | done | |].
      * left. rewrite Hq' in *. rewrite length_app in *.
        destruct (qualifies w h i lead); simpl in *; lia.
      * intros m Hm. assert (m = 0%nat) as -> by lia.
        cbn [take qualifying]. by rewrite app_nil_r.
    + apply Nat.leb_gt in Hcap.
      destruct (IH _ _ _ _ _ Hrun Hcap) as (n & Hn & -> & Hstop & Hmin).
      exists (S n). cbn [take qualifying length].
      rewrite (qualifying_ext w h h1 _ Hpost) in *.
      rewrite Hq', <- !app_assoc in *.
      split_and!; [lia | done | |].
      * destruct Hstop as [Hstop | ->]; [by left | by right].
      * intros [|m] Hm; cbn [take qualifying].
        { by rewrite app_nil_r. }
        specialize (Hmin m ltac:(lia)).
        by rewrite (qualifying_ext w h h1 _ Hpost), <- !app_assoc in Hmin.
Qed.

Lemma score_from_returns reply post excerpt :
  slice50 post = Ret excerpt → ∃ score, score_from reply post = Ret score.
Proof.
  intros Hslice. unfold score_from. destruct reply as [content|e]; simpl.
  - rewrite Hslice. simpl. destruct (parse_score _); simpl; by eauto.
  - rewrite Hslice. simpl. by eauto.
Qed.

(** With a client, live widgets and leads whose posts can be sliced, no
    turn of the loop raises. *)
Lemma qualify_loop_returns w leads :
  (∀ p, refresh w Qualifying p = Ret tt) →
  ∀ i qualified h,
    Forall (has_post h) leads →
    ∃ out h', qualify_loop w i leads qualified h = (Ret out, h').
Proof.
  intros Hui. induction leads as [|lead rest IH]; intros i qualified h Hposts.
  - by exists qualified, h.
  - apply Forall_cons in Hposts as [(post & excerpt & Hpost & Hslice) Hrest].
    rewrite qualify_loop_cons. unfold getitem. rewrite Hpost.
    destruct (score_from_returns (chat_create w i (score_prompt w post)) _ _ Hslice)
      as [score ->].
    destruct (qualify_keep lead score qualified h) as [qualified' h1] eqn:Hkeep.
    rewrite Hui. destruct (_ <=? _)%nat; [by eauto|].
    apply IH. eapply Forall_impl; [done|].
    intros l (post' & excerpt' & Hpost' & Hslice'). exists post', excerpt'.
    split; [|done]. by rewrite (qualify_keep_fields _ _ _ _ _ _ l "post" Hkeep).
Qed.

(** C10, as the code has it.  The leads returned by [qualify_leads] form a
    subsequence of the input list.  When the stage fails as a whole the
    result is empty; otherwise it consists of the qualifying leads of the
    first [n] input leads, where [n] is the length of the shortest prefix
    that contains [LEADS_PER_RUN] qualifying leads, or of the whole input
    when no prefix does.  The stage does not fail when the client can be
    built, the widgets respond and every lead has a post that can be
    sliced. *)
Theorem qualify_leads_order (w : world) (leads : list loc) (h : heap) :
  let out := (qualify_leads w leads h).1 in
  out `sublist_of` leads
  ∧ match (qualify_try w leads h).1 with
    | Raise _ => out = []
    | Ret _ =>
        ∃ n, (n ≤ length leads)%nat
          ∧ out = qualifying w h 0 (take n leads)
          ∧ (length out = LEADS_PER_RUN ∨ n = length leads)
          ∧ ∀ m, (m < n)%nat →
              (length (qualifying w h 0 (take m leads)) < LEADS_PER_RUN)%nat
    end
  ∧ (OpenAI w = Ret tt →
     (∀ p, refresh w Qualifying p = Ret tt) →
     Forall (has_post h) leads →
     (qualify_try w leads h).1 = Ret out).
Proof.
  split_and!.
  - destruct (qualify_leads_cases w leads h)
      as [(out & h' & Htry & ->) | (e & h' & _ & ->)]; simpl.
    + apply qualify_try_ret in Htry.
      destruct (qualify_loop_sound w (λ z, 5 ≤ z) (λ _ _ _ _ H, H) _ _ _ _ _ _ Htry)
        as (_ & _ & kept & -> & Hsub); [unfold LEADS_PER_RUN; simpl; lia | done |].
      done.
    + apply sublist_nil_l.
  - destruct (qualify_leads_cases w leads h)
      as [(out & h' & Htry & ->) | (e & h' & -> & ->)]; simpl; [|done].
    rewrite Htry. simpl. apply qualify_try_ret in Htry.
    assert (0 < LEADS_PER_RUN)%nat as Hcap by (unfold LEADS_PER_RUN; lia).
    by apply (qualify_loop_order w leads 0%nat [] h out h').
  - intros Hclient Hui Hposts.
    destruct (qualify_loop_returns w leads Hui 0%nat [] h Hposts) as (out & h' & Hloop).
    unfold qualify_leads, qualify_try, mbind, exec_bind, lift, mret, exec_ret.
    by rewrite Hclient, Hloop, Hui.
Qed.

(** C10 as stated fails: with two leads that both qualify, the window is
    closed during the second turn; the stage fails as a whole and returns
    the empty list, which is not the list of the qualifying leads of any
    prefix that the claim allows. *)
Lemma qualify_leads_drops_qualifiers :
  let w := Scenario.window_closed_at 1 in
  let out := (qualify_leads w [0; 1]%nat Sample.store).1 in
  out = []
  ∧ qualifying w Sample.store 0 [0; 1]%nat = [0; 1]%nat
  ∧ ¬ ∃ n, (n ≤ 2)%nat
        ∧ out = qualifying w Sample.store 0 (take n [0; 1]%nat)
        ∧ (length out = LEADS_PER_RUN ∨ n = 2%nat).
Proof.
  split_and!; [by vm_compute | by vm_compute |].
  intros (n & Hn & Hout & [Hfull | ->]).
  - vm_compute in Hfull. discriminate.
  - vm_compute in Hout. discriminate.
Qed.

(** When a later lead has no [post], the stage fails as a whole: the
    lead kept before is not returned, although its [score] is written. *)
Example qualify_leads_fail_soft :
  let run := qualify_leads (Sample.replying "7") [0; 5]%nat Sample.store in
  run.1 = [] ∧ dict_lookup (run.2 !!! 0%nat) "score" = Some (PInt 7).
Proof. split; by vm_compute. Qed.

(** ** Range of the score *)

Lemma score_from_cases reply post score :
  score_from reply post = Ret score →
  score = 0 ∨ ∃ content, reply = Ret content ∧ score = plain_score (strip content).
Proof.
  unfold score_from. destruct reply as [content|e]; simpl.
  - destruct (slice50 post); simpl; [|done].
    pose proof (parse_score_plain (strip content)) as Hplain.
    destruct (parse_score (strip content)) as [z|e']; intros [= <-]; eauto.
  - destruct (slice50 post); simpl; [|done]. intros [= <-]. by left.
Qed.

(** C7, as the code has it.  Every lead returned by [qualify_leads] has an
    integer score of at least 5, and of at most [bound] when every reply
    of the scoring service is a numeral of at most [bound]; the score is
    the numeral replied, not clamped. *)
Theorem qualify_leads_score_bounds (w : world) (leads : list loc) (h : heap)
    (bound : Z) :
  (∀ i prompt content,
     chat_create w i prompt = Ret content → plain_score (strip content) ≤ bound) →
  Forall (score_is (λ z, 5 ≤ z ≤ bound) (qualify_leads w leads h).2)
         (qualify_leads w leads h).1.
Proof.
  intros Hbound.
  destruct (qualify_leads_cases w leads h)
    as [(out & h' & Htry & ->) | (e & h' & _ & ->)]; simpl; [|done].
  apply qualify_try_ret in Htry.
  eapply (qualify_loop_sound w (λ z, 5 ≤ z ≤ bound)) in Htry
    as (_ & Hall & _); [done | | unfold LEADS_PER_RUN; simpl; lia | done].
  intros i post score Hscore Hge. split; [done|].
  apply score_from_cases in Hscore as [-> | (content & Hreply & ->)]; [lia|].
  by eapply Hbound.
Qed.

Lemma qualify_leads_score_bounds_witness :
  Forall (score_is (λ z, 5 ≤ z ≤ 10)
            (qualify_leads (Sample.replying "7") [0; 1]%nat Sample.store).2)
         (qualify_leads (Sample.replying "7") [0; 1]%nat Sample.store).1.
Proof.
  apply (qualify_leads_score_bounds (Sample.replying "7") [0; 1]%nat Sample.store 10).
  intros i prompt content [= <-]. vm_compute. discriminate.
Defined.

(** C7 as stated fails: a reply of ["42"] is stored as score 42. *)
Lemma qualify_leads_score_42 :
  let run := qualify_leads (Sample.replying "42") [0]%nat Sample.store in
  run.1 = [0]%nat
  ∧ dict_lookup (run.2 !!! 0%nat) "score" = Some (PInt 42)
  ∧ ¬ score_is (λ z, 0 ≤ z ≤ 10) run.2 0%nat.
Proof.
  split_and!; [by vm_compute | by vm_compute |].
  intros (z & Hz & Hrange). vm_compute in Hz. injection Hz as <-. lia.
Qed.

(** ** Enricher *)

Lemma enrich_one_eq w i lead h :
  enrich_one w i lead h =
  match getitem (h !!! lead) "name" with
  | Raise e => (Raise e, h)
  | Ret name =>
    match requests_get_json w i (hunter_url w name) with
    | Raise e => (Raise e, h)
    | Ret response =>
      match py_get response "data" (PDict []) with
      | Raise e => (Raise e, h)
      | Ret data =>
        match py_get data "email" (PStr "N/A") with
        | Raise e => (Raise e, h)
        | Ret email =>
          let h1 := <[lead := dict_set (h !!! lead) "email" email]> h in
          match getitem (h1 !!! lead) "post" with
          | Raise e => (Raise e, h1)
          | Ret post =>
            match slice50 post with
            | Raise e => (Raise e, h1)
            | Ret excerpt =>
              (refresh w Enriching (UiStep i),
               <[lead := dict_set (h1 !!! lead) "why_fit"
                           (PStr ("Post: " +:+ format_value w excerpt +:+ "..."))]> h1)
            end
          end
        end
      end
    end
  end.
Proof.
  unfold enrich_one, mbind, exec_bind, load, lift, store_field.
  repeat case_match; simplify_eq; done.
Qed.

Lemma enrich_loop_cons w i lead rest h :
  enrich_loop w i (lead :: rest) h =
  match enrich_one w i lead h with
  | (Ret _, h1) => enrich_loop w (S i) rest h1
  | (Raise e, h1) => (Raise e, h1)
  end.
Proof. reflexivity. Qed.

Lemma dict_set_keeps (d : pydict) k v k' :
  is_Some (dict_lookup d k') → is_Some (dict_lookup (dict_set d k v) k').
Proof.
  intros Hk'. destruct (decide (k = k')) as [->|Hne].
  - rewrite dict_lookup_set_eq. eauto.
  - by rewrite dict_lookup_set_ne.
Qed.

(** The effect of one turn on the store, however the turn ends. *)
Lemma enrich_one_effect w i lead h r h' :
  enrich_one w i lead h = (r, h') →
  (∀ l, l ≠ lead → h' !!! l = h !!! l)
  ∧ (∀ l k, k ≠ "email" → k ≠ "why_fit" →
       dict_lookup (h' !!! l) k = dict_lookup (h !!! l) k)
  ∧ (∀ l k, is_Some (dict_lookup (h !!! l) k) → is_Some (dict_lookup (h' !!! l) k))
  ∧ (r = Ret tt → enriched h' lead).
Proof.
  rewrite enrich_one_eq.
  destruct (getitem _ _) as [name|?]; [|intros [= <- <-]; by split_and!].
  destruct (requests_get_json _ _ _) as [response|?];
    [|intros [= <- <-]; by split_and!].
  destruct (py_get response _ _) as [data|?]; [|intros [= <- <-]; by split_and!].
  destruct (py_get data _ _) as [email|?]; [|intros [= <- <-]; by split_and!].
  cbv zeta.
  set (h1 := <[lead := dict_set (h !!! lead) "email" email]> h).
  assert (∀ l, l ≠ lead → h1 !!! l = h !!! l) as Hframe1.
  { intros l Hl. unfold h1. by rewrite lookup_total_insert_ne. }
  assert (h1 !!! lead = dict_set (h !!! lead) "email" email) as Hlead1.
  { unfold h1. by rewrite lookup_total_insert_eq. }
  assert (∀ l k, k ≠ "email" → dict_lookup (h1 !!! l) k = dict_lookup (h !!! l) k)
    as Hfields1.
  { intros l k Hk. destruct (decide (l = lead)) as [->|Hne].
    - rewrite Hlead1. by apply dict_lookup_set_ne.
    - by rewrite Hframe1. }
  assert (∀ l k, is_Some (dict_lookup (h !!! l) k) → is_Some (dict_lookup (h1 !!! l) k))
    as Hkeep1.
  { intros l k Hk. destruct (decide (l = lead)) as [->|Hne].
    - rewrite Hlead1. by apply dict_set_keeps.
    - by rewrite Hframe1. }
  destruct (getitem (h1 !!! lead) _) as [post|?];
    [|intros [= <- <-]; split_and!; [done | by auto | done | done]].
  destruct (slice50 post) as [excerpt|?];
    [|intros [= <- <-]; split_and!; [done | by auto | done | done]].
  intros [= <- <-].
  split_and!.
  - intros l Hl. rewrite lookup_total_insert_ne by done. by apply Hframe1.
  - intros l k Hemail Hwhy. destruct (decide (l = lead)) as [->|Hne].
    + rewrite lookup_total_insert_eq, dict_lookup_set_ne by done. by apply Hfields1.
    + rewrite lookup_total_insert_ne by done. by apply Hfields1.
  - intros l k Hk. apply Hkeep1 in Hk. destruct (decide (l = lead)) as [->|Hne].
    + rewrite lookup_total_insert_eq. by apply dict_set_keeps.
    + by rewrite lookup_total_insert_ne.
  - intros _. unfold enriched. rewrite lookup_total_insert_eq. split.
    + apply dict_set_keeps. rewrite Hlead1, dict_lookup_set_eq. eauto.
    + rewrite dict_lookup_set_eq. eauto.
Qed.

Lemma enrich_loop_effect w leads :
  ∀ i h r h',
    enrich_loop w i leads h = (r, h') →
    (∀ l k, k ≠ "email" → k ≠ "why_fit" →
       dict_lookup (h' !!! l) k = dict_lookup (h !!! l) k)
    ∧ (∀ l k, is_Some (dict_lookup (h !!! l) k) → is_Some (dict_lookup (h' !!! l) k))
    ∧ ∃ n, (n ≤ length leads)%nat
        ∧ (r = Ret tt → n = length leads)
        ∧ (∀ l, l ∈ take n leads → enriched h' l)
        ∧ (∀ l, l ∉ take (S n) leads → h' !!! l = h !!! l).
Proof.
  induction leads as [|lead rest IH]; intros i h r h'.
  - intros [= <- <-]. split_and!; [done | done |].
    exists 0%nat. split_and!; [done | done | | done].
    intros l Hl. by apply elem_of_nil in Hl.
  - rewrite enrich_loop_cons.
    destruct (enrich_one w i lead h) as [[[]|e] h1] eqn:Hone;
      apply enrich_one_effect in Hone as (Hframe & Hfields & Hkeep & Hdone).
    + intros (Hfields' & Hkeep' & n & Hn & Hret & Hbefore & Hafter)%IH.
      split_and!.
      * intros l k ? ?. rewrite Hfields' by done. by apply Hfields.
      * intros l k Hk. by apply Hkeep', Hkeep.
      * exists (S n). split_and!; [simpl; lia | | |].
        -- intros Hr. simpl. by rewrite (Hret Hr).
        -- intros l [-> | Hl]%elem_of_cons; [|by apply Hbefore].
           destruct (Hdone eq_refl) as [He Hw]. split; by apply Hkeep'.
        -- intros l Hl. cbn [take] in Hl.
           apply not_elem_of_cons in Hl as [Hne Hl].
           rewrite Hafter by done. by apply Hframe.
    + intros [= <- <-]. split_and!; [done | done |].
      exists 0%nat. split_and!; [simpl; lia | done | |].
      * intros l Hl. by apply elem_of_nil in Hl.
      * intros l Hl. cbn [take] in Hl. rewrite take_0 in Hl.
        apply Hframe. by apply not_elem_of_cons in Hl as [? _].
Qed.

Lemma enrich_leads_fst w leads h : (enrich_leads w leads h).1 = leads.
Proof.
  unfold enrich_leads, enrich_try, mbind, exec_bind, lift, mret, exec_ret.
  destruct (enrich_loop w 0 leads h) as [[[]|e] h1]; simpl; [|done].
  by destruct (refresh w Enriching UiClose).
Qed.

(** C3.  On every input list (the empty one included), in every world
    and store, [enrich_leads] returns a list of the length of its input,
    in fact the input list itself: both when the loop completes and when
    an exception is caught by the handler. *)
Theorem enrich_leads_same_list (w : world) (leads : list loc) (h : heap) :
  length (enrich_leads w leads h).1 = length leads
  ∧ (enrich_leads w leads h).1 = leads
  ∧ (enrich_leads w [] h).1 = [].
Proof.
  assert (∀ ls, (enrich_leads w ls h).1 = ls) as Hsame.
  { intros ls. unfold enrich_leads.
    destruct (enrich_try w ls h) as [[out|e] h'] eqn:Htry; simpl.
    - (* the loop completed: [return leads] of line 119 *)
      revert Htry. unfold enrich_try, mbind, exec_bind, lift, mret, exec_ret.
      destruct (enrich_loop w 0 ls h) as [[[]|] h1]; [|done].
      destruct (refresh w Enriching UiClose); [|done]. by intros [= <- _].
    - (* an exception was caught: [return leads] of line 122 *)
      reflexivity. }
  by rewrite !Hsame.
Qed.

(** C5 as stated fails: the second lookup raises, the exception is
    caught, and the first lead of the returned list has gained an [email]
    field it did not have at entry. *)
Lemma enrich_leads_exception_modifies :
  let run := enrich_leads (Sample.outage_at 1) [0; 1]%nat Sample.store in
  (enrich_try (Sample.outage_at 1) [0; 1]%nat Sample.store).1
    = Raise (ExternalError "timeout")
  ∧ run.1 = [0; 1]%nat
  ∧ dict_lookup (Sample.store !!! 0%nat) "email" = None
  ∧ dict_lookup (run.2 !!! 0%nat) "email" = Some (PStr "ann@example.com")
  ∧ run.2 !!! 0%nat ≠ Sample.store !!! 0%nat.
Proof.
  split_and!; [by vm_compute .. |].
  intros Heq. apply (f_equal (λ d, dict_lookup d "email")) in Heq.
  vm_compute in Heq. discriminate.
Qed.

(** When the lookup of a lead answers with an object that has no address,
    the lead's [email] field is set to ["N/A"], no other object changes,
    and the loop goes on with the next lead. *)
Lemma enrich_absent_email (w : world) (i : nat) (lead : loc) (rest : list loc)
    (h : heap) (name post excerpt : pyval) (response : pydict) :
  dict_lookup (h !!! lead) "name" = Some name →
  dict_lookup (h !!! lead) "post" = Some post →
  slice50 post = Ret excerpt →
  requests_get_json w i (hunter_url w name) = Ret (PDict response) →
  lacks_email response = true →
  refresh w Enriching (UiStep i) = Ret tt →
  ∃ h1, enrich_loop w i (lead :: rest) h = enrich_loop w (S i) rest h1
      ∧ dict_lookup (h1 !!! lead) "email" = Some (PStr "N/A")
      ∧ ∀ l, l ≠ lead → h1 !!! l = h !!! l.
Proof.
  intros Hname Hpost Hslice Hget Hlacks Hui.
  rewrite enrich_loop_cons, enrich_one_eq. unfold getitem at 1.
  rewrite Hname, Hget. cbn [py_get].
  assert (py_get (dict_get response "data" (PDict [])) "email" (PStr "N/A")
          = Ret (PStr "N/A")) as ->.
  { unfold lacks_email in Hlacks. unfold dict_get.
    destruct (dict_lookup response "data") as [[| | | | |data]|]; try done.
    simpl. unfold dict_get. by destruct (dict_lookup data "email"). }
  cbv zeta. unfold getitem. eexists. split.
  { rewrite lookup_total_insert_eq, dict_lookup_set_ne, Hpost, Hslice, Hui by done.
    reflexivity. }
  split.
  - rewrite lookup_total_insert_eq, dict_lookup_set_ne by done.
    apply dict_lookup_set_eq.
  - intros l Hl. by rewrite !lookup_total_insert_ne.
Qed.

Example enrich_absent_email_run :
  ∃ h1, enrich_loop Sample.nothing_found 0 [0; 1]%nat Sample.store
        = enrich_loop Sample.nothing_found 1 [1]%nat h1
      ∧ dict_lookup (h1 !!! 0%nat) "email" = Some (PStr "N/A")
      ∧ ∀ l, l ≠ 0%nat → h1 !!! l = Sample.store !!! l.
Proof.
  apply (enrich_absent_email Sample.nothing_found 0 0%nat [1]%nat Sample.store
           (PStr "Ann Baker") (PStr "We are bakery owners in town")
           (PStr "We are bakery owners in town") [("errors", PList [])]);
    reflexivity.
Defined.

(** C6 as stated fails: the first lookup raises; the first lead gets no
    [email] field at all, and the second lead, whose lookup would have
    answered, is never processed. *)
Lemma enrich_leads_failing_lookup_aborts :
  let run := enrich_leads (Sample.outage_at 0) [0; 1]%nat Sample.store in
  requests_get_json (Sample.outage_at 0) 0
    (hunter_url (Sample.outage_at 0) (PStr "Ann Baker"))
    = Raise (ExternalError "timeout")
  ∧ dict_lookup (run.2 !!! 0%nat) "email" = None
  ∧ dict_lookup (run.2 !!! 1%nat) "email" = None
  ∧ run.2 = Sample.store.
Proof. split_and!; by vm_compute. Qed.

(** ** Publisher *)

Lemma add_column_nonempty columns k : add_column columns k ≠ [].
Proof.
  unfold add_column. destruct columns as [|c columns]; simpl; [done|].
  by destruct (_ || _).
Qed.

Lemma add_columns_nonempty columns (d : pydict) :
  columns ≠ [] ∨ d ≠ [] → add_columns columns d ≠ [].
Proof.
  unfold add_columns. revert columns.
  induction d as [|[k v] d IH]; intros columns; simpl.
  - by intros [?|?].
  - intros _. apply IH. left. apply add_column_nonempty.
Qed.

Lemma columns_nonempty (records : list pydict) :
  ∀ columns, columns ≠ [] ∨ Exists (λ d, d ≠ []) records →
    fold_left add_columns records columns ≠ [].
Proof.
  induction records as [|d records IH]; intros columns; simpl.
  - intros [?|Hex]; [done | by apply Exists_nil in Hex].
  - intros [Hc | [Hd | Hex]%Exists_cons].
    + apply IH. left. apply add_columns_nonempty. by left.
    + apply IH. left. apply add_columns_nonempty. by right.
    + apply IH. by right.
Qed.

Lemma sheet_rows_of_leads (records : list pydict) :
  Exists (λ d, d ≠ []) records →
  sheet_rows records =
  map (λ c, Some (PStr c)) (df_columns (frame_of records))
  :: map (λ d, map (dict_lookup d) (df_columns (frame_of records))) records.
Proof.
  intros Hex. unfold sheet_rows.
  assert (df_empty (frame_of records) = false) as ->; [|done].
  unfold df_empty, frame_of. cbn [df_columns df_values].
  apply orb_false_intro.
  - pose proof (columns_nonempty records [] (or_intror Hex)).
    by destruct (fold_left add_columns records []).
  - rewrite length_map. destruct records; [|done]. by apply Exists_nil in Hex.
Qed.

(** Line 129 asks the class for [from_json_keydict], which it does not
    define, so the Publisher raises before it talks to the backend. *)
Lemma upload_try_raises w records log :
  upload_try w records log = (Raise AttributeError, log).
Proof. reflexivity. Qed.

(** C4.  The code does not do what the claim says: for every world, every
    lead list (the empty one included) and every store, the Publisher
    raises [AttributeError] at line 129, before a sheet is created, and no
    row is written: neither the placeholder row nor the [N + 1] rows that
    lines 135-138 prepare. *)
Theorem upload_to_sheets_writes_nothing (w : world) (leads : list loc) (h : heap) :
  upload_to_sheets w leads h = (Raise AttributeError, [])
  ∧ rows_written (upload_to_sheets w leads h).2 = [].
Proof.
  unfold upload_to_sheets. rewrite upload_try_raises.
  split; reflexivity.
Qed.

(** A list of dictionaries without any key gives a frame without columns,
    which counts as empty: the placeholder would be written. *)
Example sheet_rows_no_columns : sheet_rows [[]; []] = sheet_rows [].
Proof. reflexivity. Qed.




(** ** Collector *)

Lemma startswith_app s prefix :
  startswith s prefix = true → ∃ after, s = prefix +:+ after.
Proof.
  revert s. induction prefix as [|p prefix IH]; intros s; simpl.
  - intros _. by exists s.
  - destruct s as [|c s]; [done|].
    intros [Hc Hs]%andb_prop. apply Ascii.eqb_eq in Hc as ->.
    destruct (IH _ Hs) as [after ->]. by exists after.
Qed.

Lemma contains_app hay needle :
  contains hay needle = true → ∃ before after, hay = before +:+ needle +:+ after.
Proof.
  induction hay as [|c hay IH]; cbn [contains].
  - rewrite orb_false_r. intros [after ->]%startswith_app. by exists "", after.
  - intros [Hhere | Hlater]%orb_prop.
    + apply startswith_app in Hhere as [after ->]. by exists "", after.
    + destruct (IH Hlater) as (before & after & ->).
      by exists (String c before), after.
Qed.

Lemma lower_split s :
  ∀ x y, lower s = x +:+ y → ∃ a b, s = a +:+ b ∧ lower a = x ∧ lower b = y.
Proof.
  induction s as [|c s IH]; intros [|cx x] y.
  - change ("" +:+ y) with y. intros <-. by exists "", "".
  - done.
  - change ("" +:+ y) with y. intros <-. by exists "", (String c s).
  - change (String cx x +:+ y) with (String cx (x +:+ y)). cbn [lower].
    intros [= <- Hrest]. destruct (IH _ _ Hrest) as (a & b & -> & <- & <-).
    by exists (String c a), b.
Qed.

Lemma contains_lower_ci text audience :
  contains (lower text) (lower audience) = true → ci_contains text audience.
Proof.
  intros (x & y & Hsplit)%contains_app.
  apply lower_split in Hsplit as (before & rest & -> & _ & Hrest).
  apply lower_split in Hrest as (middle & after & -> & Hmiddle & _).
  by exists before, middle, after.
Qed.

Lemma post_matches_hit audience post :
  post_matches audience post = Ret true →
  ∃ text, dict_lookup post "text" = Some (PStr text) ∧ ci_contains text audience.
Proof.
  unfold post_matches, getitem.
  destruct (dict_lookup post "text") as [v|]; [|done]. simpl.
  destruct (truthy v); [|done]. simpl.
  destruct v as [| | |text| |]; try done. simpl.
  intros [= Hin]. exists text. split; [done|]. by apply contains_lower_ci.
Qed.

Lemma new_lead_post post lead :
  new_lead post = Ret lead → dict_lookup lead "post" = dict_lookup post "text".
Proof.
  unfold new_lead, getitem.
  destruct (dict_lookup post "username"); [|done]. simpl.
  destruct (dict_lookup post "text") as [text|]; [|done]. simpl.
  destruct (slice50 text); [|done]. simpl. by intros [= <-].
Qed.

Lemma scrape_loop_cons audience post rest stop leads pulled :
  scrape_loop audience (post :: rest) stop leads pulled =
  match post_matches audience post with
  | Raise e => Raise e
  | Ret hit =>
      match (if hit then lead ← new_lead post; mret (leads ++ [lead])
             else mret leads) with
      | Raise e => Raise e
      | Ret leads' =>
          if (LEADS_PER_RUN * 2 <=? length leads')%nat then Ret (leads', S pulled)
          else scrape_loop audience rest stop leads' (S pulled)
      end
  end.
Proof. reflexivity. Qed.

Section collector.
Context (audience : string).

Lemma scrape_loop_spec stop posts :
  ∀ leads pulled out pulled',
    scrape_loop audience posts stop leads pulled = Ret (out, pulled') →
    (length leads < LEADS_PER_RUN * 2)%nat →
    (Forall (matches_audience audience) leads →
     Forall (matches_audience audience) out)
    ∧ (length out ≤ LEADS_PER_RUN * 2)%nat
    ∧ ∃ n, pulled' = (pulled + n)%nat ∧ (n ≤ length posts)%nat
        ∧ length out = (length leads + hits audience (take n posts))%nat
        ∧ (length out = (LEADS_PER_RUN * 2)%nat ∨ n = length posts)
        ∧ ∀ m, (m < n)%nat →
            (length leads + hits audience (take m posts) < LEADS_PER_RUN * 2)%nat.
Proof.
  induction posts as [|post rest IH]; intros leads pulled out pulled'.
  - simpl. destruct stop; [done|]. intros [= <- <-] Hlen. split; [done|].
    split; [lia|].
    exists 0%nat. simpl. split_and!; [lia | lia | lia | by right | lia].
  - rewrite scrape_loop_cons.
    pose proof (eq_refl (is_hit audience post)) as Hhit. unfold is_hit at 2 in Hhit.
    destruct (post_matches audience post) as [hit|e] eqn:Hmatch; [|done].
    intros Hrun Hlen.
    assert (∃ leads', (if hit then lead ← new_lead post; mret (leads ++ [lead])
                       else mret leads) = Ret leads'
              ∧ length leads' = (length leads + if hit then 1 else 0)%nat
              ∧ (Forall (matches_audience audience) leads →
                 Forall (matches_audience audience) leads'))
      as (leads' & Hleads' & Hlen' & Hall').
    { destruct hit.
      - destruct (new_lead post) as [lead|e] eqn:Hnew; [|done].
        exists (leads ++ [lead]). split_and!; [done | |].
        + rewrite length_app. simpl. lia.
        + intros Hall. apply Forall_app. split; [done|]. apply Forall_singleton.
          destruct (post_matches_hit _ _ Hmatch) as (text & Htext & Hci).
          exists text. by rewrite (new_lead_post _ _ Hnew).
      - exists leads. split_and!; [done | lia | done]. }
    rewrite Hleads' in Hrun.
    destruct (_ <=? _)%nat eqn:Hcap.
    + injection Hrun as <- <-. apply Nat.leb_le in Hcap. split; [done|].
      split; [destruct hit; lia|].
      exists 1%nat. cbn [take hits length]. rewrite take_0, Hhit. cbn [hits].
      split_and!; [lia | lia | destruct hit; lia | left; destruct hit; lia |].
      intros m Hm. assert (m = 0%nat) as -> by lia. cbn [take hits]. lia.
    + apply Nat.leb_gt in Hcap.
      destruct (IH _ _ _ _ Hrun Hcap)
        as (Hall & Hle & n & -> & Hn & Hout & Hstop & Hmin).
      split; [by auto|]. split; [done|].
      exists (S n). cbn [take hits length]. rewrite Hhit.
      split_and!; [lia | lia | destruct hit; lia | |].
      * destruct Hstop as [?| ->]; [by left | by right].
      * intros [|m] Hm; cbn [take hits]; [lia|]. rewrite Hhit.
        specialize (Hmin m ltac:(lia)). destruct hit; lia.
Qed.
End collector.

Lemma scrape_try_ret w audience out pulled :
  scrape_try w audience = Ret (out, pulled) →
  ∃ source, fb_get_posts w = Ret source
    ∧ scrape_loop audience (feed_posts source) (feed_error source) [] 0
      = Ret (out, pulled).
Proof.
  unfold scrape_try, mbind, result_bind, mret, result_ret.
  destruct (refresh w Collecting UiOpen); [|done].
  destruct (fb_get_posts w) as [source|]; [|done].
  destruct (scrape_loop audience (feed_posts source) _ _ _)
    as [[out' pulled']|] eqn:Hloop; [|done].
  destruct (refresh w Collecting UiClose); [|done].
  intros [= <- <-]. by exists source.
Qed.

(** C8.  For every audience string and every world, the Collector returns
    at most [2 * LEADS_PER_RUN = 20] leads, and the [post] of each is a
    text that contains the audience string up to letter case.  When the
    stage does not fail, the posts taken from the feed are the shortest
    prefix holding 20 hits, or the whole feed when there are fewer: no
    post is taken after the one that fills the cap. *)
Theorem scrape_cap_and_match (w : world) (audience : string) :
  let out := scrape_public_fb_leads w audience in
  (length out ≤ 2 * 10)%nat
  ∧ Forall (matches_audience audience) out
  ∧ match scrape_try w audience, fb_get_posts w with
    | Ret (_, pulled), Ret source =>
        (pulled ≤ length (feed_posts source))%nat
        ∧ length out = hits audience (take pulled (feed_posts source))
        ∧ (length out = (2 * 10)%nat ∨ pulled = length (feed_posts source))
        ∧ ∀ m, (m < pulled)%nat →
            (hits audience (take m (feed_posts source)) < 2 * 10)%nat
    | _, _ => out = []
    end.
Proof.
  unfold scrape_public_fb_leads.
  destruct (scrape_try w audience) as [[out pulled]|e] eqn:Htry; simpl.
  - destruct (scrape_try_ret _ _ _ _ Htry) as (source & -> & Hloop).
    apply scrape_loop_spec in Hloop
      as (Hall & Hle & n & -> & Hn & Hout & Hstop & Hmin);
      [|unfold LEADS_PER_RUN; simpl; lia].
    unfold LEADS_PER_RUN in *. simpl in Hle, Hout, Hstop, Hmin.
    split_and!; [done | by apply Hall | done | done | done | done].
  - split_and!; [lia | done |]. by destruct (fb_get_posts w).
Qed.

(** ** The run *)

(** With dialogs that do not fail, only the Publisher can make a run end
    in an exception. *)
Lemma start_process_raises w entry e :
  start_process w entry = Raise e →
  ∃ leads h, leads ≠ [] ∧ (upload_to_sheets w leads h).1 = Raise e.
Proof.
  unfold start_process.
  destruct (String.eqb _ _); [done|].
  destruct (scrape_public_fb_leads w (strip entry)) as [|r raw]; [done|].
  destruct (allocate (r :: raw)) as [raw_leads h0].
  destruct (qualify_leads w raw_leads h0) as [[|q qualified] h1]; [done|].
  pose proof (enrich_leads_fst w (q :: qualified) h1) as Hsame.
  destruct (enrich_leads w (q :: qualified) h1) as [enriched_leads h2].
  simpl in Hsame. subst enriched_leads.
  destruct (upload_to_sheets w (q :: qualified) h2).1 as [url|e'] eqn:Hup;
    simpl; [done|].
  intros [= ->]. by exists (q :: qualified), h2.
Qed.

Example start_process_bakery :
  scrape_public_fb_leads Sample.bakery "bakery owners"
  = [[("username", PStr "ann"); ("name", PStr "Ann Baker");
      ("post", PStr "We are BAKERY owners in town"); ("source", PStr "Facebook")];
     [("username", PStr "unknown"); ("name", PStr "Unknown User");
      ("post", PStr "Bakery Owners, any advice?"); ("source", PStr "Facebook")]]
  ∧ start_process Sample.bakery " bakery owners " = Raise AttributeError.
Proof. split; vm_compute; reflexivity. Qed.

Example sheet_rows_bakery :
  let '(raw_leads, h0) := allocate (scrape_public_fb_leads Sample.bakery "bakery owners") in
  let '(qualified_leads, h1) := qualify_leads Sample.bakery raw_leads h0 in
  let '(enriched_leads, h2) := enrich_leads Sample.bakery qualified_leads h1 in
  sheet_rows (map (λ l, h2 !!! l) enriched_leads)
  = [[Some (PStr "username"); Some (PStr "name"); Some (PStr "post");
      Some (PStr "source"); Some (PStr "score"); Some (PStr "email");
      Some (PStr "why_fit")];
     [Some (PStr "ann"); Some (PStr "Ann Baker");
      Some (PStr "We are BAKERY owners in town"); Some (PStr "Facebook");
      Some (PInt 8); Some (PStr "ann@example.com");
      Some (PStr "Post: We are BAKERY owners in town...")];
     [Some (PStr "unknown"); Some (PStr "Unknown User");
      Some (PStr "Bakery Owners, any advice?"); Some (PStr "Facebook");
      Some (PInt 8); Some (PStr "N/A");
      Some (PStr "Post: Bakery Owners, any advice?...")]].
Proof. vm_compute. reflexivity. Qed.

(** * Further properties *)

(** ** Collector: the leads and their order *)

Lemma post_matches_true_text audience post :
  post_matches audience post = Ret true →
  ∃ text, dict_lookup post "text" = Some (PStr text) ∧ text ≠ "".
Proof.
  unfold post_matches, getitem.
  destruct (dict_lookup post "text") as [v|]; [|done]. simpl.
  destruct (truthy v) eqn:Htruthy; [|done].
  destruct v as [| | |text| |]; try done. intros _.
  exists text. split; [done|]. intros ->. done.
Qed.

Lemma new_lead_shape audience post lead :
  lead_of_post audience post lead → collected_lead lead.
Proof.
  intros [(text & Htext & Hne)%post_matches_true_text Hnew].
  revert Hnew. unfold new_lead, getitem. rewrite Htext.
  destruct (dict_lookup post "username") as [username|]; [|done]. simpl.
  intros [= <-]. eexists _, _, text. split_and!; [done | | done].
  unfold py_or. by destruct (truthy username) eqn:Hu.
Qed.

(** What a completed run of the loop has done: it took [n] posts, the
    test of line 44 raised on none of them, and the new leads are the
    dictionaries of the hits among them, in feed order. *)
Lemma scrape_loop_run audience stop posts :
  ∀ leads pulled out pulled',
    scrape_loop audience posts stop leads pulled = Ret (out, pulled') →
    ∃ n new, pulled' = (pulled + n)%nat ∧ (n ≤ length posts)%nat
      ∧ out = leads ++ new
      ∧ Forall2 (lead_of_post audience)
          (List.filter (is_hit audience) (take n posts)) new
      ∧ Forall (λ post, post_fails audience post = false) (take n posts).
Proof.
  induction posts as [|post rest IH]; intros leads pulled out pulled'.
  - simpl. destruct stop; [done|]. intros [= <- <-].
    exists 0%nat, []. rewrite app_nil_r.
    split_and!; [lia | done | done | constructor | constructor].
  - rewrite scrape_loop_cons.
    pose proof (eq_refl (is_hit audience post)) as Hhit. unfold is_hit at 2 in Hhit.
    pose proof (eq_refl (post_fails audience post)) as Hok.
    unfold post_fails at 2 in Hok.
    destruct (post_matches audience post) as [hit|e] eqn:Hmatch; [|done].
    destruct hit.
    + destruct (new_lead post) as [lead|e] eqn:Hnew; [|done].
      change (lead ← Ret lead; mret (leads ++ [lead])) with (Ret (leads ++ [lead])).
      cbv iota beta.
      destruct (_ <=? _)%nat.
      * intros [= <- <-]. exists 1%nat, [lead].
        cbn [take List.filter length]. rewrite take_0, Hhit. cbn [List.filter].
        split_and!; [lia | lia | done | | ].
        -- by repeat constructor.
        -- by repeat constructor.
      * intros (n & new & -> & Hn & -> & Hnew' & Hall)%IH.
        exists (S n), (lead :: new).
        cbn [take List.filter length]. rewrite Hhit.
        split_and!; [lia | lia | by rewrite <- app_assoc | | ].
        -- by constructor.
        -- by constructor.
    + change (mret leads) with (Ret leads). cbv iota beta.
      destruct (_ <=? _)%nat.
      * intros [= <- <-]. exists 1%nat, [].
        cbn [take List.filter length]. rewrite take_0, Hhit, app_nil_r.
        split_and!; [lia | lia | done | constructor | ].
        by repeat constructor.
      * intros (n & new & -> & Hn & -> & Hnew' & Hall)%IH.
        exists (S n), new.
        cbn [take List.filter length]. rewrite Hhit.
        split_and!; [lia | lia | done | done | ].
        by constructor.
Qed.

Lemma scrape_leads_raw_shape w audience :
  Forall collected_lead (scrape_public_fb_leads w audience).
Proof.
  unfold scrape_public_fb_leads.
  destruct (scrape_try w audience) as [[out pulled]|e] eqn:Htry; [|done].
  destruct (scrape_try_ret _ _ _ _ Htry) as (source & _ & Hloop).
  apply scrape_loop_run in Hloop as (n & new & _ & _ & -> & Hnew & _).
  simpl. clear -Hnew.
  induction Hnew as [|post lead posts leads Hlead _ IH]; [done|].
  constructor; [by eapply new_lead_shape | done].
Qed.

(** X1.  Every lead the Collector returns is a dictionary with exactly the
    keys [username], [name], [post], [source], in this order: the
    [username] is never empty or [None] (it is ["unknown"] then), the
    [post] is a non-empty string and the [source] is ["Facebook"]. *)
Theorem scrape_leads_shape (w : world) (audience : string) :
  Forall collected_lead (scrape_public_fb_leads w audience).
Proof.
  unfold scrape_public_fb_leads.
  destruct (scrape_try w audience) as [[out pulled]|e] eqn:Htry; [|done].
  destruct (scrape_try_ret _ _ _ _ Htry) as (source & _ & Hloop).
  apply scrape_loop_run in Hloop as (n & new & _ & _ & -> & Hnew & _).
  simpl. clear -Hnew.
  induction Hnew as [|post lead posts leads Hlead _ IH]; [done|].
  constructor; [by eapply new_lead_shape | done].
Qed.

(** X2.  When the Collector does not fail, the leads it returns are, in
    feed order, the dictionaries built from the posts that pass the test
    of line 44 among the posts it took from the feed: no hit is dropped,
    none is repeated and none is reordered. *)
Theorem scrape_leads_in_feed_order (w : world) (audience : string)
    (out : list pydict) (pulled : nat) (source : feed) :
  scrape_try w audience = Ret (out, pulled) →
  fb_get_posts w = Ret source →
  scrape_public_fb_leads w audience = out
  ∧ Forall2 (lead_of_post audience)
      (List.filter (is_hit audience) (take pulled (feed_posts source))) out.
Proof.
  intros Htry Hsource. unfold scrape_public_fb_leads. rewrite Htry.
  split; [done|].
  destruct (scrape_try_ret _ _ _ _ Htry) as (source' & Hsource' & Hloop).
  assert (source' = source) as -> by congruence.
  by apply scrape_loop_run in Hloop as (n & new & -> & _ & -> & Hnew & _).
Qed.

Lemma scrape_leads_in_feed_order_witness :
  scrape_public_fb_leads Sample.bakery "bakery owners"
  = [[("username", PStr "ann"); ("name", PStr "Ann Baker");
      ("post", PStr "We are BAKERY owners in town"); ("source", PStr "Facebook")];
     [("username", PStr "unknown"); ("name", PStr "Unknown User");
      ("post", PStr "Bakery Owners, any advice?"); ("source", PStr "Facebook")]].
Proof.
  eapply (scrape_leads_in_feed_order Sample.bakery "bakery owners" _ 3%nat);
    reflexivity.
Defined.

Lemma hits_take_mono audience (posts : list pydict) :
  ∀ m k, (m ≤ k)%nat →
    (hits audience (take m posts) ≤ hits audience (take k posts))%nat.
Proof.
  induction posts as [|post rest IH]; intros m k Hmk.
  - by rewrite !take_nil.
  - destruct m as [|m]; [simpl; lia|]. destruct k as [|k]; [lia|].
    cbn [take hits]. specialize (IH m k ltac:(lia)). lia.
Qed.

(** X3.  The Collector keeps nothing when it fails: if lines 44-51 raise
    on a post of the feed (its [text] is missing or is a non-empty value
    that is not a string, or it is a hit without [username]) and fewer
    than 20 hits come before that post, the result is the empty list,
    whatever was collected before. *)
Theorem scrape_discards_on_error (w : world) (audience : string) (source : feed)
    (k : nat) (post : pydict) :
  fb_get_posts w = Ret source →
  feed_posts source !! k = Some post →
  post_fails audience post = true →
  (hits audience (take k (feed_posts source)) < 2 * LEADS_PER_RUN)%nat →
  scrape_public_fb_leads w audience = [].
Proof.
  intros Hsource Hk Hfails Hbefore. unfold scrape_public_fb_leads.
  destruct (scrape_try w audience) as [[out pulled]|e] eqn:Htry; [|done].
  exfalso.
  destruct (scrape_try_ret _ _ _ _ Htry) as (source' & Hsource' & Hloop).
  assert (source' = source) as -> by congruence.
  pose proof Hloop as (n & new & Hn & _ & _ & _ & Hok)%scrape_loop_run.
  apply scrape_loop_spec in Hloop
    as (_ & _ & n' & Hn' & _ & Hout & Hstop & _);
    [|unfold LEADS_PER_RUN; simpl; lia].
  assert (n' = n) as -> by lia. simpl in Hout.
  assert (k < length (feed_posts source))%nat as Hklen.
  { by eapply lookup_lt_Some. }
  assert (k < n)%nat as Hkn.
  { destruct (decide (k < n)%nat) as [|Hge]; [done|].
    pose proof (hits_take_mono audience (feed_posts source) n k ltac:(lia)).
    unfold LEADS_PER_RUN in *. destruct Hstop as [Hfull|Hall]; lia. }
  rewrite Forall_forall in Hok.
  assert (post_fails audience post = false); [|congruence].
  apply Hok. apply list_elem_of_lookup. exists k. by rewrite lookup_take_lt.
Qed.

Lemma scrape_discards_on_error_witness :
  scrape_public_fb_leads Scenario.broken_feed "bakery owners" = [].
Proof.
  apply (scrape_discards_on_error Scenario.broken_feed "bakery owners"
           (Feed [[("text", PStr "Bakery owners wanted"); ("username", PStr "ann")];
                  [("username", PStr "bob")]] None)
           1 [("username", PStr "bob")]);
    [reflexivity | reflexivity | reflexivity | vm_compute; lia].
Defined.

Lemma post_matches_audience a b post :
  lower a = lower b → post_matches a post = post_matches b post.
Proof. intros Hab. unfold post_matches. by rewrite Hab. Qed.

Lemma scrape_loop_audience a b stop posts :
  lower a = lower b →
  ∀ leads pulled,
    scrape_loop a posts stop leads pulled = scrape_loop b posts stop leads pulled.
Proof.
  intros Hab. induction posts as [|post rest IH]; intros leads pulled; [done|].
  rewrite !scrape_loop_cons, (post_matches_audience a b post Hab).
  destruct (post_matches b post) as [hit|]; [|done].
  destruct (if hit then _ else _) as [leads'|]; [|done].
  by rewrite IH.
Qed.

(** X4.  The Collector does not see the letter case of the audience: two
    audience strings that differ only in case give the same leads. *)
Theorem scrape_audience_case (w : world) (a b : string) :
  lower a = lower b →
  scrape_public_fb_leads w a = scrape_public_fb_leads w b.
Proof.
  intros Hab. unfold scrape_public_fb_leads, scrape_try.
  destruct (refresh w Collecting UiOpen); [|done].
  destruct (fb_get_posts w) as [source|]; [|done]. simpl.
  by rewrite (scrape_loop_audience a b _ _ Hab).
Qed.

Lemma scrape_audience_case_witness :
  scrape_public_fb_leads Sample.bakery "Bakery Owners"
  = scrape_public_fb_leads Sample.bakery "BAKERY OWNERS".
Proof.
  apply (scrape_audience_case Sample.bakery "Bakery Owners" "BAKERY OWNERS").
  reflexivity.
Defined.

(** ** Qualifier: failing calls, untouched leads, range of the parse *)

(** X5.  A scoring call that raises does not end the Qualifier's loop: the
    lead gets score 0, so it is left out and nothing is written to it, and
    the loop goes on with the next lead. *)
Theorem qualify_call_failure_skips (w : world) (i : nat) (lead : loc)
    (rest qualified : list loc) (h : heap) (post excerpt : pyval) (e : exn) :
  dict_lookup (h !!! lead) "post" = Some post →
  slice50 post = Ret excerpt →
  chat_create w i (score_prompt w post) = Raise e →
  refresh w Qualifying (UiStep i) = Ret tt →
  (length qualified < LEADS_PER_RUN)%nat →
  qualify_loop w i (lead :: rest) qualified h
  = qualify_loop w (S i) rest qualified h.
Proof.
  intros Hpost Hslice Hcall Hui Hlen.
  rewrite qualify_loop_cons. unfold getitem. rewrite Hpost, Hcall.
  assert (score_from (Raise e) post = Ret 0) as ->.
  { unfold score_from. simpl. by rewrite Hslice. }
  assert (qualify_keep lead 0 qualified h = (qualified, h)) as -> by reflexivity.
  rewrite Hui. apply Nat.leb_gt in Hlen. by rewrite Hlen.
Qed.

Lemma qualify_call_failure_skips_witness :
  qualify_loop (Scenario.scoring_outage_at 0) 0 [0; 1]%nat [] Sample.store
  = qualify_loop (Scenario.scoring_outage_at 0) 1 [1]%nat [] Sample.store.
Proof.
  apply (qualify_call_failure_skips (Scenario.scoring_outage_at 0) 0 0%nat [1]%nat
           [] Sample.store (PStr "We are bakery owners in town")
           (PStr "We are bakery owners in town") (ExternalError "rate limit"));
    [reflexivity | reflexivity | reflexivity | reflexivity | ].
  unfold LEADS_PER_RUN. simpl. lia.
Defined.

Lemma qualify_loop_frame w leads :
  ∀ i qualified h out h',
    qualify_loop w i leads qualified h = (Ret out, h') →
    (∃ kept, out = qualified ++ kept)
    ∧ ∀ l, l ∉ out → h' !!! l = h !!! l.
Proof.
  induction leads as [|lead rest IH]; intros i qualified h out h'.
  - intros [= <- <-]. split; [|done]. exists []. by rewrite app_nil_r.
  - rewrite qualify_loop_cons.
    destruct (getitem _ _) as [post|e]; [|done].
    destruct (score_from _ _) as [score|e]; [|done].
    destruct (qualify_keep _ _ _ _) as [qualified' h1] eqn:Hkeep.
    assert ((∃ one, qualified' = qualified ++ one)
            ∧ ∀ l, l ∉ qualified' → h1 !!! l = h !!! l) as [[one ->] Hframe].
    { destruct (qualify_keep_spec _ _ _ _ _ _ Hkeep)
        as [(-> & -> & _) | (-> & _ & ->)].
      - split; [|done]. exists []. by rewrite app_nil_r.
      - split; [by exists [lead]|]. intros l Hl.
        rewrite lookup_total_insert_ne; [done|].
        intros <-. apply Hl. apply elem_of_app. right.
        by apply list_elem_of_singleton. }
    destruct (refresh _ _ _); [|done].
    destruct (_ <=? _)%nat.
    + intros [= <- <-]. split; [by exists one | done].
    + intros [[kept ->] Hframe']%IH. split.
      * exists (one ++ kept). by rewrite app_assoc.
      * intros l Hl. rewrite Hframe' by done. apply Hframe.
        by apply not_elem_of_app in Hl as [Hl _].
Qed.

(** X6.  When the Qualifier does not fail as a whole, it changes nothing
    but the leads it returns: every object that is not in the returned
    list, a rejected lead in particular, is exactly as it was at entry. *)
Theorem qualify_leaves_rejected_untouched (w : world) (leads : list loc)
    (h : heap) (out : list loc) (l : loc) :
  (qualify_try w leads h).1 = Ret out →
  l ∉ out →
  (qualify_leads w leads h).1 = out
  ∧ (qualify_leads w leads h).2 !!! l = h !!! l.
Proof.
  intros Htry Hl. unfold qualify_leads.
  destruct (qualify_try w leads h) as [r h'] eqn:Hrun. simpl in Htry. subst r.
  simpl. split; [done|].
  apply qualify_try_ret in Hrun.
  by apply qualify_loop_frame in Hrun as [_ Hframe]; apply Hframe.
Qed.

Lemma qualify_leaves_rejected_untouched_witness :
  (qualify_leads (Scenario.scoring_outage_at 0) [0; 1]%nat Sample.store).1 = [1]%nat
  ∧ (qualify_leads (Scenario.scoring_outage_at 0) [0; 1]%nat Sample.store).2 !!! 0%nat
    = Sample.store !!! 0%nat.
Proof.
  apply (qualify_leaves_rejected_untouched (Scenario.scoring_outage_at 0)
           [0; 1]%nat Sample.store [1]%nat 0%nat).
  - reflexivity.
  - intros Hin. apply list_elem_of_In in Hin. simpl in Hin.
    destruct Hin as [Heq | []]. discriminate Heq.
Defined.

Lemma digit_value_nonneg c : isdecimal_char c = true → 0 ≤ digit_value c.
Proof.
  destruct c as [[] [] [] [] [] [] [] []]; try discriminate;
    intros _; vm_compute; discriminate.
Qed.

Lemma decimal_value_nonneg s :
  ∀ acc, forall_chars isdecimal_char s = true → 0 ≤ acc → 0 ≤ decimal_value acc s.
Proof.
  induction s as [|c s IH]; intros acc; simpl; [done|].
  intros [Hc Hs]%andb_prop Hacc. apply IH; [done|].
  pose proof (digit_value_nonneg c Hc). lia.
Qed.

(** X7.  The score computed from a reply is never negative, whatever the
    service replies or raises: a reply with a sign is no digit string and
    gives 0. *)
Theorem score_from_nonneg (reply : result string) (post : pyval) (score : Z) :
  score_from reply post = Ret score → 0 ≤ score.
Proof.
  intros [-> | (content & -> & ->)]%score_from_cases; [done|].
  unfold plain_score, plain_literal.
  destruct (negb _ && forall_chars _ _) eqn:Hplain; [|done].
  apply andb_prop in Hplain as [_ Hdigits]. by apply decimal_value_nonneg.
Qed.

Lemma score_from_nonneg_witness : 0 ≤ 12.
Proof.
  exact (score_from_nonneg (Ret "12") (PStr "a post") 12 eq_refl).
Defined.

Lemma decimal_value_uint_acc d :
  ∀ acc, decimal_value (Z.pos acc) (NilEmpty.string_of_uint d)
         = Z.pos (Pos.of_uint_acc d acc).
Proof.
  induction d; intros acc; cbn [NilEmpty.string_of_uint decimal_value Pos.of_uint_acc];
    [done|..];
    rewrite <- IHd; f_equal; vm_compute digit_value; lia.
Qed.

Lemma decimal_value_uint d :
  decimal_value 0 (NilEmpty.string_of_uint d) = Z.of_N (Pos.of_uint d).
Proof.
  induction d; cbn [NilEmpty.string_of_uint decimal_value Pos.of_uint Z.of_N];
    [done | exact IHd | ..];
    rewrite <- decimal_value_uint_acc; reflexivity.
Qed.

Lemma string_of_uint_decimal d :
  forall_chars isdecimal_char (NilEmpty.string_of_uint d) = true.
Proof. induction d; simpl; [done|..]; exact IHd. Qed.

Lemma string_of_Z_plain n :
  0 ≤ n →
  plain_literal (string_of_Z n) = true ∧ decimal_value 0 (string_of_Z n) = n.
Proof.
  intros Hn. destruct n as [|p|p]; [done | | lia].
  unfold string_of_Z, plain_literal. cbn [Z.to_int NilZero.string_of_int].
  pose proof (DecimalPos.Unsigned.to_uint_nonnil p) as Hnil.
  pose proof (DecimalPos.Unsigned.of_to p) as Hback.
  destruct (Pos.to_uint p) as [|d|d|d|d|d|d|d|d|d|d] eqn:Hd; [done|..];
    (split; [apply (string_of_uint_decimal (_ d))|]);
    unfold NilZero.string_of_uint;
    rewrite decimal_value_uint, Hback; reflexivity.
Qed.

(** X8.  Round trip of the score: when the service replies the decimal
    numeral of a non-negative integer [n] of at most 4300 digits (the
    length up to which the interpreter's [int] accepts a numeral), the
    score computed for the lead is [n]. *)
Theorem score_from_numeral (n : Z) (post : string) :
  0 ≤ n < 10 ^ 4300 → score_from (Ret (string_of_Z n)) (PStr post) = Ret n.
Proof.
  intros [Hn _]. destruct (string_of_Z_plain n Hn) as [Hplain Hvalue].
  rewrite score_from_reply.
  assert (strip (string_of_Z n) = string_of_Z n) as ->.
  { apply strip_digits. apply plain_literal_isdigit in Hplain.
    unfold isdigit in Hplain. by destruct (string_of_Z n). }
  unfold plain_score. by rewrite Hplain, Hvalue.
Qed.

Lemma score_from_numeral_witness :
  score_from (Ret "2025") (PStr "a post") = Ret 2025.
Proof.
  apply (score_from_numeral 2025 "a post"). split; [lia|].
  apply Z.ltb_lt. vm_compute. reflexivity.
Defined.

(** ** Enricher: what is written *)

Lemma enrich_one_why_fit w i lead h r h1 :
  enrich_one w i lead h = (r, h1) →
  (∀ l, dict_lookup (h1 !!! l) "why_fit" = dict_lookup (h !!! l) "why_fit"
        ∨ why_fit_from w h h1 l)
  ∧ (r = Ret tt → why_fit_from w h h1 lead).
Proof.
  rewrite enrich_one_eq.
  destruct (getitem _ _) as [name|?]; [|intros [= <- <-]; split; [by left | done]].
  destruct (requests_get_json _ _ _) as [response|?];
    [|intros [= <- <-]; split; [by left | done]].
  destruct (py_get response _ _) as [data|?];
    [|intros [= <- <-]; split; [by left | done]].
  destruct (py_get data _ _) as [email|?];
    [|intros [= <- <-]; split; [by left | done]].
  cbv zeta. rewrite !lookup_total_insert_eq. unfold getitem.
  rewrite dict_lookup_set_ne by done.
  assert (∀ l, dict_lookup (<[lead:=dict_set (h !!! lead) "email" email]> h !!! l)
                 "why_fit" = dict_lookup (h !!! l) "why_fit") as Hsame.
  { intros l. destruct (decide (l = lead)) as [->|Hne].
    - rewrite lookup_total_insert_eq. by apply dict_lookup_set_ne.
    - by rewrite lookup_total_insert_ne. }
  destruct (dict_lookup (h !!! lead) "post") as [post|] eqn:Hpost;
    [|intros [= <- <-]; split; [by left | done]].
  destruct (slice50 post) as [excerpt|] eqn:Hslice;
    [|intros [= <- <-]; split; [by left | done]].
  intros [= <- <-].
  assert (why_fit_from w h
            (<[lead:=dict_set (dict_set (h !!! lead) "email" email) "why_fit"
                       (PStr ("Post: " +:+ format_value w excerpt +:+ "..."))]>
               (<[lead:=dict_set (h !!! lead) "email" email]> h)) lead) as Hlead.
  { exists post, (PStr ("Post: " +:+ format_value w excerpt +:+ "...")).
    split_and!; [done | by unfold why_fit_of; rewrite Hslice |].
    by rewrite lookup_total_insert_eq, dict_lookup_set_eq. }
  split; [|done].
  intros l. destruct (decide (l = lead)) as [->|Hne]; [by right|].
  left. rewrite lookup_total_insert_ne by done. apply Hsame.
Qed.

Lemma why_fit_from_later w h h1 h' l :
  dict_lookup (h1 !!! l) "post" = dict_lookup (h !!! l) "post" →
  why_fit_from w h1 h' l → why_fit_from w h h' l.
Proof. intros Hpost (post & v & ? & ? & ?). exists post, v. by rewrite <- Hpost. Qed.

Lemma enrich_loop_why_fit w leads :
  ∀ i h r h',
    enrich_loop w i leads h = (r, h') →
    (∀ l, dict_lookup (h' !!! l) "why_fit" = dict_lookup (h !!! l) "why_fit"
          ∨ why_fit_from w h h' l)
    ∧ (r = Ret tt → ∀ l, l ∈ leads → why_fit_from w h h' l).
Proof.
  induction leads as [|lead rest IH]; intros i h r h'.
  - intros [= <- <-]. split; [by left|]. intros _ l Hl. by apply elem_of_nil in Hl.
  - rewrite enrich_loop_cons.
    destruct (enrich_one w i lead h) as [[[]|e] h1] eqn:Hone.
    + pose proof Hone as (_ & Hfields & _ & _)%enrich_one_effect.
      apply enrich_one_why_fit in Hone as [Hstep Hdone].
      intros [Hlater Hall]%IH.
      assert (∀ l, why_fit_from w h1 h' l → why_fit_from w h h' l) as Hback.
      { intros l. apply why_fit_from_later. by apply Hfields. }
      assert (∀ l, dict_lookup (h' !!! l) "why_fit" = dict_lookup (h !!! l) "why_fit"
                   ∨ why_fit_from w h h' l) as Hany.
      { intros l. destruct (Hlater l) as [Heq|?]; [|right; by apply Hback].
        destruct (Hstep l) as [Heq'|(post & v & ? & ? & Hv)].
        - left. congruence.
        - right. exists post, v. split_and!; [done | done | congruence]. }
      split; [done|].
      intros Hr l Hl. apply elem_of_cons in Hl as [-> | Hl];
        [|apply Hback; by apply Hall].
      destruct (Hdone eq_refl) as (post & v & ? & ? & Hv).
      destruct (Hlater lead) as [Heq|?]; [|by apply Hback].
      exists post, v. split_and!; [done | done | congruence].
    + apply enrich_one_why_fit in Hone as [Hstep _].
      intros [= <- <-]. split; [done | done].
Qed.

(** X9.  When the Enricher's loop completes, every lead of the list has an
    [email] field and a [why_fit] field, and the [why_fit] is the text
    ["Post: "], then the first 50 characters of the lead's [post], then
    ["..."]. *)
Theorem enrich_leads_completed (w : world) (leads : list loc) (h : heap)
    (out : list loc) (l : loc) :
  (enrich_try w leads h).1 = Ret out →
  l ∈ leads →
  enriched (enrich_leads w leads h).2 l
  ∧ ∃ post excerpt,
      dict_lookup (h !!! l) "post" = Some post
      ∧ slice50 post = Ret excerpt
      ∧ dict_lookup ((enrich_leads w leads h).2 !!! l) "why_fit"
        = Some (PStr ("Post: " +:+ format_value w excerpt +:+ "...")).
Proof.
  unfold enrich_leads, enrich_try, mbind, exec_bind, lift, mret, exec_ret.
  destruct (enrich_loop w 0 leads h) as [[[]|e] h1] eqn:Hloop; [|done].
  pose proof Hloop as (_ & _ & n & _ & Hn & Hbefore & _)%enrich_loop_effect.
  apply enrich_loop_why_fit in Hloop as [_ Hwhy].
  destruct (refresh w Enriching UiClose); [|done]. simpl.
  intros _ Hl. split.
  - apply Hbefore. by rewrite (Hn eq_refl), firstn_all.
  - destruct (Hwhy eq_refl l Hl) as (post & v & Hpost & Hv & Hfield).
    unfold why_fit_of in Hv.
    destruct (slice50 post) as [excerpt|] eqn:Hslice; [|done].
    injection Hv as <-. by exists post, excerpt.
Qed.

Lemma enrich_leads_completed_witness :
  enriched (enrich_leads (Sample.replying "7") [0; 1]%nat Sample.store).2 1%nat
  ∧ ∃ post excerpt,
      dict_lookup (Sample.store !!! 1%nat) "post" = Some post
      ∧ slice50 post = Ret excerpt
      ∧ dict_lookup ((enrich_leads (Sample.replying "7") [0; 1]%nat Sample.store).2
                       !!! 1%nat) "why_fit"
        = Some (PStr ("Post: " +:+ format_value (Sample.replying "7") excerpt
                      +:+ "...")).
Proof.
  apply (enrich_leads_completed (Sample.replying "7") [0; 1]%nat Sample.store
           [0; 1]%nat 1%nat); [reflexivity|].
  apply list_elem_of_In. simpl. auto.
Defined.

(** X10.  An address the lookup returns is stored as it is, whatever its
    value: when the response has an [email] entry under [data], the lead's
    [email] becomes that value (also the JSON null, for which the
    placeholder is not used) and the loop goes on with the next lead. *)
Theorem enrich_found_email (w : world) (i : nat) (lead : loc) (rest : list loc)
    (h : heap) (name post excerpt v : pyval) (response : pydict) :
  dict_lookup (h !!! lead) "name" = Some name →
  dict_lookup (h !!! lead) "post" = Some post →
  slice50 post = Ret excerpt →
  requests_get_json w i (hunter_url w name) = Ret (PDict response) →
  email_in response = Some v →
  refresh w Enriching (UiStep i) = Ret tt →
  ∃ h1, enrich_loop w i (lead :: rest) h = enrich_loop w (S i) rest h1
      ∧ dict_lookup (h1 !!! lead) "email" = Some v
      ∧ ∀ l, l ≠ lead → h1 !!! l = h !!! l.
Proof.
  intros Hname Hpost Hslice Hget Hemail Hui.
  rewrite enrich_loop_cons, enrich_one_eq. unfold getitem at 1.
  rewrite Hname, Hget. cbn [py_get].
  assert (py_get (dict_get response "data" (PDict [])) "email" (PStr "N/A")
          = Ret v) as ->.
  { unfold email_in in Hemail. unfold dict_get.
    destruct (dict_lookup response "data") as [[| | | | |data]|]; try done.
    simpl. unfold dict_get. by rewrite Hemail. }
  cbv zeta. unfold getitem. eexists. split.
  { rewrite lookup_total_insert_eq, dict_lookup_set_ne, Hpost, Hslice, Hui by done.
    reflexivity. }
  split.
  - rewrite lookup_total_insert_eq, dict_lookup_set_ne by done.
    apply dict_lookup_set_eq.
  - intros l Hl. by rewrite !lookup_total_insert_ne.
Qed.

Lemma enrich_found_email_witness :
  ∃ h1, enrich_loop
          (Sample.serving (λ _ _, Ret "7")
             (λ _ _, Ret (PDict [("data", PDict [("email", PNone)])])))
          0 [0; 1]%nat Sample.store
        = enrich_loop
            (Sample.serving (λ _ _, Ret "7")
               (λ _ _, Ret (PDict [("data", PDict [("email", PNone)])])))
            1 [1]%nat h1
      ∧ dict_lookup (h1 !!! 0%nat) "email" = Some PNone
      ∧ ∀ l, l ≠ 0%nat → h1 !!! l = Sample.store !!! l.
Proof.
  apply (enrich_found_email _ 0 0%nat [1]%nat Sample.store
           (PStr "Ann Baker") (PStr "We are bakery owners in town")
           (PStr "We are bakery owners in town") PNone
           [("data", PDict [("email", PNone)])]);
    reflexivity.
Defined.

(** X11.  A response of another shape is not tolerated: when the parsed
    response is not an object, or its [data] entry is not an object (JSON
    null for one), the turn raises [AttributeError] before anything is
    written and the loop ends there. *)
Theorem enrich_malformed_response (w : world) (i : nat) (lead : loc)
    (rest : list loc) (h : heap) (name response : pyval) :
  dict_lookup (h !!! lead) "name" = Some name →
  requests_get_json w i (hunter_url w name) = Ret response →
  malformed response = true →
  enrich_loop w i (lead :: rest) h = (Raise AttributeError, h).
Proof.
  intros Hname Hget Hbad.
  rewrite enrich_loop_cons, enrich_one_eq. unfold getitem.
  rewrite Hname, Hget.
  destruct response as [| | | | |d]; try done.
  cbn [py_get]. unfold dict_get. simpl in Hbad.
  by destruct (dict_lookup d "data") as [[| | | | |data]|].
Qed.

Lemma enrich_malformed_response_witness :
  enrich_loop (Sample.serving (λ _ _, Ret "7") (λ _ _, Ret (PDict [("data", PNone)])))
    0 [0; 1]%nat Sample.store
  = (Raise AttributeError, Sample.store).
Proof.
  apply (enrich_malformed_response _ 0 0%nat [1]%nat Sample.store
           (PStr "Ann Baker") (PDict [("data", PNone)]));
    reflexivity.
Defined.

(** X12.  On every path, the Enricher changes no field other than [email]
    and [why_fit], of any object: the score, the post and the other fields
    of a lead reach the Publisher as the earlier stages left them. *)
Theorem enrich_leads_other_fields (w : world) (leads : list loc) (h : heap)
    (l : loc) (k : string) :
  k ≠ "email" → k ≠ "why_fit" →
  dict_lookup ((enrich_leads w leads h).2 !!! l) k = dict_lookup (h !!! l) k.
Proof.
  intros Hemail Hwhy.
  assert ((enrich_leads w leads h).2 = (enrich_loop w 0 leads h).2) as ->.
  { unfold enrich_leads, enrich_try, mbind, exec_bind, lift, mret, exec_ret.
    destruct (enrich_loop w 0 leads h) as [[[]|e] h1]; [|done].
    by destruct (refresh w Enriching UiClose). }
  destruct (enrich_loop w 0 leads h) as [r h1] eqn:Hloop.
  apply enrich_loop_effect in Hloop as (Hfields & _). by apply Hfields.
Qed.

Lemma enrich_leads_other_fields_witness :
  dict_lookup ((enrich_leads (Sample.outage_at 1) [0; 1]%nat Sample.store).2 !!! 0%nat)
    "post"
  = dict_lookup (Sample.store !!! 0%nat) "post".
Proof.
  apply (enrich_leads_other_fields (Sample.outage_at 1) [0; 1]%nat Sample.store
           0%nat "post"); discriminate.
Defined.

(** ** Publisher: shape of the table, order of the calls *)

Lemma existsb_eqb_elem_of (k : string) (columns : list string) :
  existsb (String.eqb k) columns = true ↔ k ∈ columns.
Proof.
  rewrite existsb_exists. split.
  - intros (k' & Hin & ->%String.eqb_eq). by apply list_elem_of_In.
  - intros Hin. exists k. split; [by apply list_elem_of_In | apply String.eqb_refl].
Qed.

Lemma add_column_elem_of columns k k' :
  k' ∈ add_column columns k ↔ k' ∈ columns ∨ k' = k.
Proof.
  unfold add_column. destruct (existsb _ _) eqn:Hin.
  - apply existsb_eqb_elem_of in Hin. split; [by left|]. by intros [?| ->].
  - rewrite elem_of_app, list_elem_of_singleton. done.
Qed.

Lemma add_column_NoDup columns k : NoDup columns → NoDup (add_column columns k).
Proof.
  intros Hnd. unfold add_column. destruct (existsb _ _) eqn:Hin; [done|].
  apply NoDup_app. split_and!; [done | | apply NoDup_singleton].
  intros k' Hk' ->%list_elem_of_singleton.
  apply existsb_eqb_elem_of in Hk'. congruence.
Qed.

Lemma add_columns_spec (d : pydict) :
  ∀ columns,
    (NoDup columns → NoDup (add_columns columns d))
    ∧ ∀ k, k ∈ add_columns columns d ↔ k ∈ columns ∨ k ∈ map fst d.
Proof.
  unfold add_columns. induction d as [|[k0 v0] d IH]; intros columns; simpl.
  - split; [done|]. intros k. split; [by left|]. intros [?|Hin]; [done|].
    by apply elem_of_nil in Hin.
  - destruct (IH (add_column columns k0)) as [Hnd Hin]. split.
    + intros ?. by apply Hnd, add_column_NoDup.
    + intros k. rewrite Hin, add_column_elem_of, elem_of_cons. tauto.
Qed.

Lemma dict_lookup_is_Some (d : pydict) k :
  is_Some (dict_lookup d k) ↔ k ∈ map fst d.
Proof.
  induction d as [|[k0 v0] d IH]; simpl.
  - split; [by intros [? ?] | by intros ?%elem_of_nil].
  - rewrite elem_of_cons. destruct (String.eqb k0 k) eqn:Heq.
    + apply String.eqb_eq in Heq as ->. split; [by left | eauto].
    + apply String.eqb_neq in Heq. rewrite IH.
      split; [by right | by intros [->|?]].
Qed.

Lemma frame_columns_spec (records : list pydict) :
  ∀ columns,
    (NoDup columns → NoDup (fold_left add_columns records columns))
    ∧ ∀ k, k ∈ fold_left add_columns records columns
           ↔ k ∈ columns ∨ ∃ d, d ∈ records ∧ is_Some (dict_lookup d k).
Proof.
  induction records as [|d records IH]; intros columns; simpl.
  - split; [done|]. intros k. split; [by left|].
    intros [?|(d & Hd & _)]; [done|]. by apply elem_of_nil in Hd.
  - destruct (IH (add_columns columns d)) as [Hnd Hin].
    destruct (add_columns_spec d columns) as [Hnd' Hin']. split.
    + intros ?. by apply Hnd, Hnd'.
    + intros k. rewrite Hin, Hin', <- dict_lookup_is_Some. split.
      * intros [[?|?]|(d' & ? & ?)]; [by left | right | right].
        -- exists d. split; [by left | done].
        -- exists d'. split; [by right | done].
      * intros [?|(d' & [-> | ?]%elem_of_cons & ?)]; [by left; left | by left; right |].
        right. by exists d'.
Qed.

(** X13.  The frame built from the leads has each key of each lead as a
    column, exactly once: a key is a column if and only if some lead has
    it, so no field of a lead is left out and no column is repeated. *)
Theorem frame_columns (records : list pydict) :
  NoDup (df_columns (frame_of records))
  ∧ ∀ k, k ∈ df_columns (frame_of records)
         ↔ ∃ d, d ∈ records ∧ is_Some (dict_lookup d k).
Proof.
  unfold frame_of. cbn [df_columns].
  destruct (frame_columns_spec records []) as [Hnd Hin]. split.
  - apply Hnd. constructor.
  - intros k. rewrite Hin. split; [|by right].
    intros [Hnil|?]; [by apply elem_of_nil in Hnil | done].
Qed.

(** X14.  The table handed to [sheet.update] is rectangular, for every
    list of leads: it has a header row, and every row under it has as many
    cells as the header (a lead that lacks a field has a missing cell). *)
Theorem sheet_rows_rectangular (records : list pydict) :
  ∃ header body,
    sheet_rows records = header :: body
    ∧ Forall (λ row, length row = length header) body.
Proof.
  unfold sheet_rows.
  set (df := if df_empty (frame_of records) then frame_of [placeholder_record]
             else frame_of records).
  exists (map (λ c, Some (PStr c)) (df_columns df)), (df_values df).
  split; [done|].
  assert (∀ rs, Forall (λ row : list cell,
                          length row = length (df_columns (frame_of rs)))
                  (df_values (frame_of rs))) as Hframe.
  { intros rs. unfold frame_of. cbn [df_columns df_values].
    apply Forall_map, Forall_forall. intros d _. by rewrite length_map. }
  rewrite length_map. unfold df. destruct (df_empty _); apply Hframe.
Qed.


(** ** The run: what reaches the Publisher, and how a run ends *)

Lemma scrape_matches w audience :
  Forall (matches_audience audience) (scrape_public_fb_leads w audience).
Proof.
  unfold scrape_public_fb_leads.
  destruct (scrape_try w audience) as [[out pulled]|e] eqn:Htry; [|done].
  destruct (scrape_try_ret _ _ _ _ Htry) as (source & _ & Hloop).
  apply scrape_loop_spec in Hloop as (Hall & _);
    [by apply Hall | unfold LEADS_PER_RUN; simpl; lia].
Qed.

Lemma qualify_leads_facts w leads h :
  (qualify_leads w leads h).1 `sublist_of` leads
  ∧ Forall (score_is (λ z, 5 ≤ z) (qualify_leads w leads h).2) (qualify_leads w leads h).1
  ∧ (length (qualify_leads w leads h).1 ≤ LEADS_PER_RUN)%nat.
Proof.
  destruct (qualify_leads_cases w leads h)
    as [(out & h' & Htry & ->) | (e & h' & _ & ->)]; simpl.
  - apply qualify_try_ret in Htry.
    destruct (qualify_loop_sound w (λ z, 5 ≤ z) (λ _ _ _ _ H, H) _ _ _ _ _ _ Htry)
      as (Hlen & Hall & kept & -> & Hsub); [unfold LEADS_PER_RUN; simpl; lia | done |].
    done.
  - split_and!; [apply sublist_nil_l | done | lia].
Qed.

Lemma enrich_leads_store w leads h :
  (enrich_leads w leads h).2 = (enrich_loop w 0 leads h).2.
Proof.
  unfold enrich_leads, enrich_try, mbind, exec_bind, lift, mret, exec_ret.
  destruct (enrich_loop w 0 leads h) as [[[]|e] h1]; [|done].
  by destruct (refresh w Enriching UiClose).
Qed.

Lemma enrich_leads_fields w leads h l k :
  k ≠ "email" → k ≠ "why_fit" →
  dict_lookup ((enrich_leads w leads h).2 !!! l) k = dict_lookup (h !!! l) k.
Proof.
  intros Hemail Hwhy. rewrite enrich_leads_store.
  destruct (enrich_loop w 0 leads h) as [r h1] eqn:Hloop.
  apply enrich_loop_effect in Hloop as (Hfields & _). by apply Hfields.
Qed.

Lemma allocate_lookup (records : list pydict) l :
  l ∈ (allocate records).1 → (allocate records).2 !!! l ∈ records.
Proof.
  unfold allocate. cbn [fst snd]. intros Hl%list_elem_of_In%in_seq.
  destruct (lookup_lt_is_Some_2 records l ltac:(lia)) as [d Hd].
  rewrite (lookup_total_correct (map_seq 0 records) l d).
  - apply list_elem_of_lookup. by exists l.
  - by rewrite lookup_map_seq_0.
Qed.

(** What the Publisher receives in a run. *)
Lemma publisher_input_inv w entry leads h :
  publisher_input w entry = Some (leads, h) →
  strip entry ≠ ""
  ∧ (1 ≤ length leads ≤ LEADS_PER_RUN)%nat
  ∧ NoDup leads
  ∧ ∀ l, l ∈ leads →
      score_is (λ z, 5 ≤ z) h l
      ∧ matches_audience (strip entry) (h !!! l)
      ∧ dict_lookup (h !!! l) "source" = Some (PStr "Facebook")
      ∧ is_Some (dict_lookup (h !!! l) "username")
      ∧ is_Some (dict_lookup (h !!! l) "name").
Proof.
  unfold publisher_input.
  destruct (String.eqb (strip entry) "") eqn:Hblank; [done|].
  apply String.eqb_neq in Hblank.
  pose proof (scrape_matches w (strip entry)) as Hmatch.
  pose proof (scrape_leads_raw_shape w (strip entry)) as Hshape.
  destruct (scrape_public_fb_leads w (strip entry)) as [|r raw]; [done|].
  remember (r :: raw) as records eqn:Hrecords.
  pose proof (allocate_lookup records) as Halloc.
  unfold allocate in Halloc |- *. cbn [fst snd] in Halloc. cbv beta iota zeta.
  set (raw_leads := seq 0 (length records)) in *.
  set (h0 := map_seq 0 records : heap) in *.
  assert (NoDup raw_leads) as Hnd by apply NoDup_ListNoDup, seq_NoDup.
  pose proof (qualify_leads_facts w raw_leads h0) as (Hsub & Hscored & Hlen).
  pose proof (qualify_leads_fields w raw_leads h0) as Hq.
  destruct (qualify_leads w raw_leads h0) as [[|q qualified] h1]; [done|].
  cbn [fst snd] in *.
  pose proof (enrich_leads_fst w (q :: qualified) h1) as Hsame.
  pose proof (enrich_leads_fields w (q :: qualified) h1) as He.
  destruct (enrich_leads w (q :: qualified) h1) as [leads' h2].
  cbn [fst snd] in *. intros [= <- <-]. subst leads'.
  split_and!; [done | simpl; lia | done | by eapply sublist_NoDup |].
  intros l Hl.
  assert (h0 !!! l ∈ records) as Hraw.
  { apply Halloc. by eapply elem_of_sublist. }
  assert (∀ k, k ≠ "score" → k ≠ "email" → k ≠ "why_fit" →
            dict_lookup (h2 !!! l) k = dict_lookup (h0 !!! l) k) as Hkeep.
  { intros k ? ? ?. by rewrite He, Hq. }
  rewrite Forall_forall in Hmatch. rewrite Forall_forall in Hshape.
  rewrite Forall_forall in Hscored.
  destruct (Hshape _ Hraw) as (username & name & text & Hrecord & _ & _).
  split_and!.
  - destruct (Hscored l Hl) as (z & Hz & Hge). exists z.
    by rewrite He.
  - destruct (Hmatch _ Hraw) as (text' & Htext & Hci). exists text'.
    by rewrite Hkeep.
  - rewrite Hkeep, Hrecord by done. reflexivity.
  - rewrite Hkeep, Hrecord by done. by eexists.
  - rewrite Hkeep, Hrecord by done. by eexists.
Qed.

Lemma start_process_factor w entry :
  start_process w entry =
  match publisher_input w entry with
  | Some (leads, h) =>
      sheet_url ← (upload_to_sheets w leads h).1;
      mret (ShowInfo ("Done! Found " +:+ string_of_Z (Z.of_nat (length leads))
                      +:+ " leads: " +:+ sheet_url))
  | None =>
      if String.eqb (strip entry) "" then Ret (ShowError "Enter an audience first!")
      else
        match scrape_public_fb_leads w (strip entry) with
        | [] => Ret (ShowWarning "No leads found on public FB. Try a different audience.")
        | _ => Ret (ShowWarning "No leads scored high enough. Try a broader audience.")
        end
  end.
Proof.
  unfold start_process, publisher_input.
  destruct (String.eqb (strip entry) ""); [done|].
  destruct (scrape_public_fb_leads w (strip entry)) as [|r raw]; [done|].
  destruct (allocate (r :: raw)) as [raw_leads h0].
  destruct (qualify_leads w raw_leads h0) as [[|q qualified] h1]; [done|].
  by destruct (enrich_leads w (q :: qualified) h1) as [leads h2].
Qed.

(** X16.  What a run hands to the Publisher: between 1 and 10 distinct
    leads, each with a score of at least 5, a [post] that contains the
    audience typed in (stripped, up to letter case), the source
    ["Facebook"] and the Collector's [username] and [name]. *)
Theorem run_hands_over_qualified_leads (w : world) (entry : string)
    (leads : list loc) (h : heap) :
  publisher_input w entry = Some (leads, h) →
  (1 ≤ length leads ≤ 10)%nat
  ∧ NoDup leads
  ∧ Forall (λ l, score_is (λ z, 5 ≤ z) h l
                 ∧ matches_audience (strip entry) (h !!! l)
                 ∧ dict_lookup (h !!! l) "source" = Some (PStr "Facebook")
                 ∧ is_Some (dict_lookup (h !!! l) "username")
                 ∧ is_Some (dict_lookup (h !!! l) "name")) leads.
Proof.
  intros (_ & Hlen & Hnd & Hall)%publisher_input_inv.
  split_and!; [lia | apply Hlen | done |].
  apply Forall_forall. intros l Hl. by apply Hall.
Qed.

Lemma run_hands_over_qualified_leads_witness :
  (1 ≤ length Scenario.handed_over.1 ≤ 10)%nat
  ∧ NoDup Scenario.handed_over.1
  ∧ Forall (λ l, score_is (λ z, 5 ≤ z) Scenario.handed_over.2 l
                 ∧ matches_audience (strip "bakery owners")
                     (Scenario.handed_over.2 !!! l)
                 ∧ dict_lookup (Scenario.handed_over.2 !!! l) "source"
                   = Some (PStr "Facebook")
                 ∧ is_Some (dict_lookup (Scenario.handed_over.2 !!! l) "username")
                 ∧ is_Some (dict_lookup (Scenario.handed_over.2 !!! l) "name"))
      Scenario.handed_over.1.
Proof.
  apply (run_hands_over_qualified_leads Sample.bakery "bakery owners").
  vm_compute. reflexivity.
Defined.

(** X17.  No run ends with the completion dialog: a run that reaches the
    Publisher ends in the [AttributeError] of line 129, and a run that
    does not reach it ends with the error or a warning dialog. *)
Theorem run_never_completes (w : world) (entry : string) :
  (∀ text, start_process w entry ≠ Ret (ShowInfo text))
  ∧ match publisher_input w entry with
    | Some _ => start_process w entry = Raise AttributeError
    | None =>
        ∃ text, start_process w entry = Ret (ShowError text)
                ∨ start_process w entry = Ret (ShowWarning text)
    end.
Proof.
  rewrite start_process_factor.
  destruct (publisher_input w entry) as [[leads h]|].
  - unfold upload_to_sheets. rewrite upload_try_raises. by split.
  - destruct (String.eqb _ _); [split; [done | eauto]|].
    destruct (scrape_public_fb_leads w (strip entry)); split; by eauto.
Qed.

(** X18.  A run ends in an exception exactly when it reaches the Publisher
    and the Publisher raises: a failure of the Collector, of the Qualifier
    or of the Enricher never does that. *)
Theorem run_raises_iff (w : world) (entry : string) (e : exn) :
  start_process w entry = Raise e
  ↔ ∃ leads h, publisher_input w entry = Some (leads, h)
      ∧ (upload_to_sheets w leads h).1 = Raise e.
Proof.
  rewrite start_process_factor. split.
  - destruct (publisher_input w entry) as [[leads h]|].
    + destruct (upload_to_sheets w leads h).1 as [url|e'] eqn:Hup; [done|].
      intros [= ->]. by exists leads, h.
    + destruct (String.eqb _ _); [done|].
      by destruct (scrape_public_fb_leads w (strip entry)).
  - intros (leads & h & -> & ->). reflexivity.
Qed.

(** X19.  When the Collector fails (the feed cannot be read, a post is
    malformed, the widgets are gone), the run ends with the warning that
    no leads were found, as if the feed held no matching post. *)
Theorem run_collector_failure (w : world) (entry : string) (e : exn) :
  strip entry ≠ "" →
  scrape_try w (strip entry) = Raise e →
  start_process w entry
  = Ret (ShowWarning "No leads found on public FB. Try a different audience.").
Proof.
  intros Hblank%String.eqb_neq Htry.
  unfold start_process, scrape_public_fb_leads. by rewrite Hblank, Htry.
Qed.

Lemma run_collector_failure_witness :
  start_process Scenario.feed_down "bakery owners"
  = Ret (ShowWarning "No leads found on public FB. Try a different audience.").
Proof.
  apply (run_collector_failure Scenario.feed_down "bakery owners"
           (ExternalError "feed unavailable")); [discriminate | reflexivity].
Defined.

(** X20.  When the client of the scoring service cannot be built, a run
    that collected leads ends with the warning that no lead scored high
    enough: the failure of the service is not told apart from low
    scores. *)
Theorem run_qualifier_failure (w : world) (entry : string) (e : exn) :
  strip entry ≠ "" →
  scrape_public_fb_leads w (strip entry) ≠ [] →
  OpenAI w = Raise e →
  start_process w entry
  = Ret (ShowWarning "No leads scored high enough. Try a broader audience.").
Proof.
  intros Hblank%String.eqb_neq Hraw Hclient.
  unfold start_process. rewrite Hblank.
  destruct (scrape_public_fb_leads w (strip entry)) as [|r raw]; [done|].
  destruct (allocate (r :: raw)) as [raw_leads h0].
  unfold qualify_leads, qualify_try, mbind, exec_bind, lift.
  by rewrite Hclient.
Qed.

Lemma run_qualifier_failure_witness :
  start_process Scenario.no_client "bakery owners"
  = Ret (ShowWarning "No leads scored high enough. Try a broader audience.").
Proof.
  apply (run_qualifier_failure Scenario.no_client "bakery owners"
           (ExternalError "invalid api key"));
    [discriminate | by vm_compute | reflexivity].
Defined.

(** ** Configuration *)

(** X21.  Loading the configuration either yields the three secrets as
    the file holds them or raises: a failure to read or parse the file is
    passed on, a parsed value that is not an object gives [TypeError], and
    an object that lacks keys gives [KeyError] for the first missing one in
    the order [hunter_key], [openai_key], [google_creds].  No default is
    ever substituted. *)
Theorem load_config_outcome (config_file : result pyval) :
  load_config config_file =
  match config_file with
  | Raise e => Raise e
  | Ret (PDict d) =>
      match List.find (λ k, match dict_lookup d k with
                            | Some _ => false
                            | None => true
                            end) config_keys with
      | Some k => Raise (KeyError k)
      | None =>
          Ret (Config (dict_get d "hunter_key" PNone) (dict_get d "openai_key" PNone)
                 (dict_get d "google_creds" PNone))
      end
  | Ret _ => Raise TypeError
  end.
Proof.
  destruct config_file as [[| | | | |d]|e]; try reflexivity.
  unfold load_config, config_keys, dict_get. cbn [List.find].
  unfold mbind, result_bind, mret, result_ret, py_subscript, getitem.
  destruct (dict_lookup d "hunter_key") as [a|]; [|done].
  destruct (dict_lookup d "openai_key") as [b|]; [|done].
  by destruct (dict_lookup d "google_creds") as [c|].
Qed.

Example load_config_missing_keys :
  load_config (Ret (PDict [("hunter_key", PStr "h")])) = Raise (KeyError "openai_key").
Proof. reflexivity. Qed.

(** ** Enricher: the exception path and the two ways a lookup fails *)

(** A loop that raises has completed some turns and raised in the next. *)
Lemma enrich_loop_raise w leads :
  ∀ i h e h',
    enrich_loop w i leads h = (Raise e, h') →
    ∃ n lead h1,
      leads !! n = Some lead
      ∧ enrich_loop w i (take n leads) h = (Ret tt, h1)
      ∧ enrich_one w (i + n) lead h1 = (Raise e, h').
Proof.
  induction leads as [|lead rest IH]; intros i h e h'; [done|].
  rewrite enrich_loop_cons.
  destruct (enrich_one w i lead h) as [[[]|e0] h1] eqn:Hone.
  - intros (n & lead' & h2 & Hlead' & Hprefix & Hturn)%IH.
    exists (S n), lead', h2. split_and!; [done | |].
    + cbn [take]. by rewrite enrich_loop_cons, Hone.
    + by replace (i + S n)%nat with (S i + n)%nat by lia.
  - intros [= <- <-]. exists 0%nat, lead, h.
    split_and!; [done | done |]. by rewrite Nat.add_0_r.
Qed.

(** What the store holds after [n] completed turns and one more turn,
    however that one ends. *)
Lemma enrich_prefix_then_turn w leads n lead h h1 r h' :
  leads !! n = Some lead →
  enrich_loop w 0 (take n leads) h = (Ret tt, h1) →
  enrich_one w n lead h1 = (r, h') →
  (∀ l, l ∈ take n leads → enriched h' l ∧ why_fit_from w h h' l)
  ∧ (∀ l, l ∉ take (S n) leads → h' !!! l = h !!! l)
  ∧ (∀ l k, k ≠ "email" → k ≠ "why_fit" →
       dict_lookup (h' !!! l) k = dict_lookup (h !!! l) k).
Proof.
  intros Hlead Hprefix Hturn.
  pose proof Hprefix as (Hfields & _ & m & _ & Hm & Hdone & Hrest)%enrich_loop_effect.
  specialize (Hm eq_refl). subst m.
  rewrite firstn_all in Hdone. rewrite take_ge in Hrest by lia.
  pose proof Hprefix as [_ Hwhy]%enrich_loop_why_fit.
  pose proof Hturn as (Hframe & Hfields' & Hkeep & _)%enrich_one_effect.
  pose proof Hturn as [Hstep _]%enrich_one_why_fit.
  split_and!.
  - intros l Hl. split.
    + destruct (Hdone l Hl) as [He Hw]. split; by apply Hkeep.
    + destruct (Hwhy eq_refl l Hl) as (post & v & Hpost & Hv & Hfield).
      destruct (Hstep l) as [Hsame | (post' & v' & Hpost' & Hv' & Hfield')].
      * exists post, v. split_and!; [done | done | congruence].
      * exists post', v'. split_and!; [|done|done].
        by rewrite <- (Hfields l "post").
  - intros l Hl. rewrite (take_S_r _ _ _ Hlead) in Hl.
    apply not_elem_of_app in Hl as [Hbefore Hthis].
    rewrite Hframe, Hrest; [done | done |].
    intros ->. apply Hthis. by apply list_elem_of_singleton.
  - intros l k Hemail Hwhy'. by rewrite Hfields', Hfields.
Qed.

(** C5, as the code has it.  When the body of [enrich_leads] raises, the
    exception is caught and the input list itself is returned, with the
    store exactly as the loop left it: [n] turns were completed, and the
    store returned is the one in which the turn of lead [n] raised (or the
    one after the last turn, when it is the closing refresh that raised).
    So the first [n] leads carry the [email] and the [why_fit] written for
    them, no field other than these two differs from its state at entry,
    and every object that is not among the first [n + 1] leads is as it
    was at entry. *)
Theorem enrich_leads_on_exception (w : world) (leads : list loc) (h : heap)
    (e : exn) :
  (enrich_try w leads h).1 = Raise e →
  (enrich_leads w leads h).1 = leads
  ∧ ∃ n h1,
      (n ≤ length leads)%nat
      ∧ enrich_loop w 0 (take n leads) h = (Ret tt, h1)
      ∧ match leads !! n with
        | Some lead => enrich_one w n lead h1 = (Raise e, (enrich_leads w leads h).2)
        | None =>
            refresh w Enriching UiClose = Raise e
            ∧ (enrich_leads w leads h).2 = h1
        end
      ∧ (∀ l, l ∈ take n leads →
           enriched (enrich_leads w leads h).2 l
           ∧ why_fit_from w h (enrich_leads w leads h).2 l)
      ∧ (∀ l, l ∉ take (S n) leads → (enrich_leads w leads h).2 !!! l = h !!! l)
      ∧ (∀ l k, k ≠ "email" → k ≠ "why_fit" →
           dict_lookup ((enrich_leads w leads h).2 !!! l) k = dict_lookup (h !!! l) k).
Proof.
  intros Hraise. split; [apply enrich_leads_fst|].
  revert Hraise. rewrite enrich_leads_store.
  unfold enrich_try, mbind, exec_bind, lift, mret, exec_ret.
  destruct (enrich_loop w 0 leads h) as [[[]|e0] h'] eqn:Hloop; cbn [fst snd].
  - (* every turn completed, the closing refresh raised *)
    destruct (refresh w Enriching UiClose) as [|e1] eqn:Hclose; [done|].
    intros [= ->]. exists (length leads), h'.
    rewrite firstn_all, (lookup_ge_None_2 leads (length leads)) by lia.
    pose proof Hloop as (Hfields & _ & m & _ & Hm & Hdone & Hrest)%enrich_loop_effect.
    specialize (Hm eq_refl). subst m. rewrite firstn_all in Hdone.
    pose proof Hloop as [_ Hwhy]%enrich_loop_why_fit.
    split_and!; [done | done | done | done | | | done].
    + intros l Hl. split; [by apply Hdone | by apply Hwhy].
    + intros l Hl. apply Hrest. by rewrite take_ge in * by lia.
  - (* the turn of lead [n] raised *)
    intros [= ->].
    apply enrich_loop_raise in Hloop as (n & lead & h1 & Hlead & Hprefix & Hturn).
    exists n, h1. rewrite Hlead.
    destruct (enrich_prefix_then_turn _ _ _ _ _ _ _ _ Hlead Hprefix Hturn)
      as (Hbefore & Hafter & Hfields).
    split_and!; [| done | done | done | done | done].
    apply lookup_lt_Some in Hlead. lia.
Qed.

Lemma enrich_leads_on_exception_witness :
  (enrich_leads (Sample.outage_at 1) [0; 1]%nat Sample.store).1 = [0; 1]%nat
  ∧ ∃ n h1,
      (n ≤ length [0; 1]%nat)%nat
      ∧ enrich_loop (Sample.outage_at 1) 0 (take n [0; 1]%nat) Sample.store
        = (Ret tt, h1)
      ∧ match [0; 1]%nat !! n with
        | Some lead =>
            enrich_one (Sample.outage_at 1) n lead h1
            = (Raise (ExternalError "timeout"),
               (enrich_leads (Sample.outage_at 1) [0; 1]%nat Sample.store).2)
        | None =>
            refresh (Sample.outage_at 1) Enriching UiClose
            = Raise (ExternalError "timeout")
            ∧ (enrich_leads (Sample.outage_at 1) [0; 1]%nat Sample.store).2 = h1
        end
      ∧ (∀ l, l ∈ take n [0; 1]%nat →
           enriched (enrich_leads (Sample.outage_at 1) [0; 1]%nat Sample.store).2 l
           ∧ why_fit_from (Sample.outage_at 1) Sample.store
               (enrich_leads (Sample.outage_at 1) [0; 1]%nat Sample.store).2 l)
      ∧ (∀ l, l ∉ take (S n) [0; 1]%nat →
           (enrich_leads (Sample.outage_at 1) [0; 1]%nat Sample.store).2 !!! l
           = Sample.store !!! l)
      ∧ (∀ l k, k ≠ "email" → k ≠ "why_fit" →
           dict_lookup
             ((enrich_leads (Sample.outage_at 1) [0; 1]%nat Sample.store).2 !!! l) k
           = dict_lookup (Sample.store !!! l) k).
Proof.
  apply (enrich_leads_on_exception (Sample.outage_at 1) [0; 1]%nat Sample.store
           (ExternalError "timeout")).
  reflexivity.
Defined.

(** C6, as the code has it.  The two ways in which the lookup of a lead
    can fail.  When the call raises, the loop ends at that lead: nothing
    is written, not even the placeholder, the leads after it are not
    processed, and the exception goes to the handler of the stage.  When
    the call answers with an object that has no address, the lead's
    [email] is set to ["N/A"], no other object changes, and the loop goes
    on with the next lead. *)
Theorem enrich_lookup_outcomes (w : world) (i : nat) (lead : loc)
    (rest : list loc) (h : heap) (name : pyval) :
  dict_lookup (h !!! lead) "name" = Some name →
  (∀ e, requests_get_json w i (hunter_url w name) = Raise e →
        enrich_loop w i (lead :: rest) h = (Raise e, h)
        ∧ (i = 0%nat → enrich_leads w (lead :: rest) h = (lead :: rest, h)))
  ∧ (∀ response post excerpt,
       requests_get_json w i (hunter_url w name) = Ret (PDict response) →
       lacks_email response = true →
       dict_lookup (h !!! lead) "post" = Some post →
       slice50 post = Ret excerpt →
       refresh w Enriching (UiStep i) = Ret tt →
       ∃ h1, enrich_loop w i (lead :: rest) h = enrich_loop w (S i) rest h1
           ∧ dict_lookup (h1 !!! lead) "email" = Some (PStr "N/A")
           ∧ ∀ l, l ≠ lead → h1 !!! l = h !!! l).
Proof.
  intros Hname. split.
  - intros e Hcall.
    assert (enrich_loop w i (lead :: rest) h = (Raise e, h)) as Hloop.
    { rewrite enrich_loop_cons, enrich_one_eq. unfold getitem.
      by rewrite Hname, Hcall. }
    split; [done|]. intros ->.
    unfold enrich_leads, enrich_try, mbind, exec_bind. by rewrite Hloop.
  - intros response post excerpt Hcall Hlacks Hpost Hslice Hui.
    by eapply enrich_absent_email.
Qed.

Lemma enrich_lookup_outcomes_witness :
  enrich_loop (Sample.outage_at 0) 0 [0; 1]%nat Sample.store
  = (Raise (ExternalError "timeout"), Sample.store)
  ∧ enrich_leads (Sample.outage_at 0) [0; 1]%nat Sample.store
    = ([0; 1]%nat, Sample.store).
Proof.
  destruct (enrich_lookup_outcomes (Sample.outage_at 0) 0 0%nat [1]%nat Sample.store
              (PStr "Ann Baker") eq_refl) as [Hraise _].
  destruct (Hraise (ExternalError "timeout") eq_refl) as [Hloop Hstage].
  split; [exact Hloop | exact (Hstage eq_refl)].
Defined.
